(** * xdg: XDG base directories, resolution and merge traversal

    A shallow embedding of package [xdg] (file [xdg.go]): the package
    variables, [init], [xdgPath], [xdgPaths], the [Find*] functions and the
    [merge]/[mergeR] loops, with the facts the package's specification
    states about them. *)

From Stdlib Require Import String Ascii List Bool Arith Lia.
Import ListNotations.
Local Open Scope string_scope.
Local Open Scope list_scope.

(** ** Go library functions used by the package *)

(** Go strings are byte sequences; [string] (a list of [ascii], that is of
    bytes) is used for them. *)

(** [path.IsAbs]: [len(path) > 0 && path[0] == '/']. *)
Definition path_IsAbs (p : string) : bool :=
  match p with
  | String c _ => Ascii.eqb c "/"
  | EmptyString => false
  end.

(** [strings.Contains(s, substr)]: [substr] starts at some offset of [s]. *)
Fixpoint strings_Contains (s substr : string) : bool :=
  String.prefix substr s
  || match s with
     | EmptyString => false
     | String _ s' => strings_Contains s' substr
     end.

(** [strings.Replace(s, old, new, -1)] for a non-empty [old] (the package
    only passes ["$HOME"]): the non-overlapping occurrences of [old] are
    replaced from left to right.  [skip] counts the bytes of a matched
    occurrence that are still to be passed over. *)
Fixpoint replace_from (old new s : string) (skip : nat) : string :=
  match s with
  | EmptyString => EmptyString
  | String c s' =>
      match skip with
      | S k => replace_from old new s' k
      | O =>
          if String.prefix old s
          then new ++ replace_from old new s' (String.length old - 1)
          else String c (replace_from old new s' 0)
      end
  end.

Definition strings_Replace_all (s old new : string) : string :=
  replace_from old new s 0.

(** [strings.Split(s, sep)] for a one-byte separator (the package only
    passes [":"]): every separator ends a segment, so the result has one
    segment more than [s] has separators, and empty segments are kept. *)
Fixpoint strings_Split (s : string) (sep : ascii) : list string :=
  match s with
  | EmptyString => [EmptyString]
  | String c s' =>
      if Ascii.eqb c sep then EmptyString :: strings_Split s' sep
      else match strings_Split s' sep with
           | seg :: segs => String c seg :: segs
           | [] => [String c EmptyString]
           end
  end.

(** [strings.Join(elems, sep)], used to state what [strings_Split] does. *)
Fixpoint strings_Join (elems : list string) (sep : ascii) : string :=
  match elems with
  | [] => EmptyString
  | [e] => e
  | e :: rest => e ++ String sep (strings_Join rest sep)
  end.

(** The process environment, as [os.Environ] has it: a list of bindings;
    [os.Getenv] returns the value of the first binding of the key, and the
    empty string when there is none. *)
Definition Env := list (string * string).

Fixpoint os_Getenv (env : Env) (key : string) : string :=
  match env with
  | [] => EmptyString
  | (k, v) :: rest => if String.eqb k key then v else os_Getenv rest key
  end.

(** ** Errors

    An [error] of this package is always a [*errorString] made by
    [errors.New]: a pointer to a freshly allocated cell that holds the
    text.  [e1 == e2] on such interface values compares the pointers, not
    the texts.  The cell is never written after its allocation, so the
    text travels with the pointer. *)
Record error := mkError { err_ptr : nat; err_text : string }.

(** The Go interface value: [None] is [nil]. *)
Definition error_value := option error.

(** [e1 == e2] on [error] interface values. *)
Definition error_eqb (e1 e2 : error_value) : bool :=
  match e1, e2 with
  | None, None => true
  | Some a, Some b => Nat.eqb (err_ptr a) (err_ptr b)
  | _, _ => false
  end.

(** [errors.New(text)]: allocates at the next free address. *)
Definition errors_New (text : string) (next : nat) : error * nat :=
  (mkError next text, S next).

(** Package-level variables initialised with [errors.New], in declaration
    order, from an empty heap; [first_free] is the next free address when
    [init] starts. *)
Definition ErrHomeInvalid : error :=
  fst (errors_New "environment variable HOME is invalid or not set" 0).

Definition Skip : error :=
  fst (errors_New "skip the rest of the files to be merged" 1).

Definition first_free : nat := 2.

(** ** Package variables *)

Record Globals := mkGlobals {
  home : string;
  ConfigHome : string;
  DataHome : string;
  CacheHome : string;
  RuntimeDir : string;
  ConfigDirs : list string;
  DataDirs : list string;
  Errors : list error;
  (** next free address of the heap [errors.New] allocates from *)
  heap_next : nat
}.

(** The package variables before [init] runs: zero values, and a heap
    that holds [ErrHomeInvalid] and [Skip]. *)
Definition zero_Globals : Globals :=
  mkGlobals "" "" "" "" "" [] [] [] first_free.

(** Code that reads and writes the package variables. *)
Definition M (A : Type) : Type := Globals -> A * Globals.

Definition ret {A} (a : A) : M A := fun g => (a, g).

Definition bind {A B} (m : M A) (k : A -> M B) : M B :=
  fun g => let (a, g') := m g in k a g'.

Declare Scope go_scope.
Delimit Scope go_scope with go.
Notation "x <- m ;; k" := (bind m (fun x => k))
  (at level 61, m at next level, right associativity) : go_scope.
Notation "m ;; k" := (bind m (fun _ => k))
  (at level 61, right associativity) : go_scope.
Local Open Scope go_scope.

Definition read {A} (field : Globals -> A) : M A := fun g => (field g, g).

Definition set_home (v : string) : M unit := fun g =>
  (tt, mkGlobals v (ConfigHome g) (DataHome g) (CacheHome g) (RuntimeDir g)
         (ConfigDirs g) (DataDirs g) (Errors g) (heap_next g)).
Definition set_ConfigHome (v : string) : M unit := fun g =>
  (tt, mkGlobals (home g) v (DataHome g) (CacheHome g) (RuntimeDir g)
         (ConfigDirs g) (DataDirs g) (Errors g) (heap_next g)).
Definition set_DataHome (v : string) : M unit := fun g =>
  (tt, mkGlobals (home g) (ConfigHome g) v (CacheHome g) (RuntimeDir g)
         (ConfigDirs g) (DataDirs g) (Errors g) (heap_next g)).
Definition set_CacheHome (v : string) : M unit := fun g =>
  (tt, mkGlobals (home g) (ConfigHome g) (DataHome g) v (RuntimeDir g)
         (ConfigDirs g) (DataDirs g) (Errors g) (heap_next g)).
Definition set_RuntimeDir (v : string) : M unit := fun g =>
  (tt, mkGlobals (home g) (ConfigHome g) (DataHome g) (CacheHome g) v
         (ConfigDirs g) (DataDirs g) (Errors g) (heap_next g)).
Definition set_ConfigDirs (v : list string) : M unit := fun g =>
  (tt, mkGlobals (home g) (ConfigHome g) (DataHome g) (CacheHome g)
         (RuntimeDir g) v (DataDirs g) (Errors g) (heap_next g)).
Definition set_DataDirs (v : list string) : M unit := fun g =>
  (tt, mkGlobals (home g) (ConfigHome g) (DataHome g) (CacheHome g)
         (RuntimeDir g) (ConfigDirs g) v (Errors g) (heap_next g)).

(** [Errors = append(Errors, e)]. *)
Definition append_Errors (e : error) : M unit := fun g =>
  (tt, mkGlobals (home g) (ConfigHome g) (DataHome g) (CacheHome g)
         (RuntimeDir g) (ConfigDirs g) (DataDirs g) (Errors g ++ [e])
         (heap_next g)).

(** [errors.New(text)] on the package's heap. *)
Definition new_error (text : string) : M error := fun g =>
  let (e, next) := errors_New text (heap_next g) in
  (e, mkGlobals (home g) (ConfigHome g) (DataHome g) (CacheHome g)
        (RuntimeDir g) (ConfigDirs g) (DataDirs g) (Errors g) next).

(** ** Resolution *)

Section Resolution.

(** The environment [os.Getenv] reads. *)
Variable environ : Env.

(** [func xdgPath(env, def string) string]. *)
Definition xdgPath (env def : string) : M string :=
  let x := os_Getenv environ env in
  h <- read home ;;
  let x :=
    if String.eqb x "" then
      if strings_Contains def "$HOME" then
        if negb (String.eqb h "")
        then strings_Replace_all def "$HOME" h
        else x
      else def
    else x in
  if path_IsAbs x then ret x
  else
    e <- new_error ("no value set for " ++ env) ;;
    append_Errors e ;;
    ret "".

(** The loop of [xdgPaths] over the segments; [fs] is the slice built so
    far. *)
Fixpoint xdgPaths_loop (env : string) (segs fs : list string)
  : M (list string) :=
  match segs with
  | [] => ret fs
  | x :: rest =>
      if path_IsAbs x then xdgPaths_loop env rest (fs ++ [x])
      else
        e <- new_error ("ignoring " ++ env ++ " path element: " ++ x) ;;
        append_Errors e ;;
        xdgPaths_loop env rest fs
  end.

(** [func xdgPaths(env, def string) []string] (the second function the
    source spells [xdgPath]; [init] calls it as [xdgPaths]). *)
Definition xdgPaths (env def : string) : M (list string) :=
  let xs := os_Getenv environ env in
  let xs := if String.eqb xs "" then def else xs in
  xdgPaths_loop env (strings_Split xs ":") [].

(** [func init()]. *)
Definition init : M unit :=
  set_home (os_Getenv environ "HOME") ;;
  h <- read home ;;
  (if path_IsAbs h
   then set_home "" ;; append_Errors ErrHomeInvalid
   else ret tt) ;;
  v <- xdgPath "XDG_CONFIG_HOME" "$HOME/.config" ;; set_ConfigHome v ;;
  v <- xdgPath "XDG_DATA_HOME" "$HOME/.config" ;; set_DataHome v ;;
  v <- xdgPath "XDG_CACHE_HOME" "$HOME/.config" ;; set_CacheHome v ;;
  v <- xdgPath "XDG_RUNTIME_DIR" "" ;; set_RuntimeDir v ;;
  l <- xdgPaths "XDG_CONFIG_DIRS" "/etc/xdg" ;; set_ConfigDirs l ;;
  l <- xdgPaths "XDG_DATA_DIRS" "/usr/local/share:/usr/share" ;;
  set_DataDirs l.

End Resolution.

(** The package variables after initialisation in environment [environ],
    starting from the variables [g]. *)
Definition resolve (environ : Env) (g : Globals) : Globals :=
  snd (init environ g).

(** ** Lookup *)

(** [func FindConfigFiles(p string) []string { return nil }] and its
    siblings: the source returns the zero value whatever the argument. *)
Definition FindConfigFiles (p : string) : list string := [].
Definition FindDataFiles (p : string) : list string := [].
Definition FindConfigFile (p : string) : string := "".
Definition FindDataFile (p : string) : string := "".
Definition FindCacheFile (p : string) : string := "".
Definition FindRuntimeFile (p : string) : string := "".

Section Finder.

(** The file system, as far as a lookup sees it: which paths exist as
    regular readable entries. *)
Variable exists_file : string -> bool.

(** Modelled from the spec: the candidate roots of a lookup, which the
    source leaves to the missing [find]: the home directory first, omitted
    if empty, then the directory list.  [paths] is the argument list of
    [merge]: home, then the directories. *)
Definition candidate_roots (paths : list string) : list string :=
  match paths with
  | [] => []
  | h :: dirs => (if String.eqb h "" then [] else [h]) ++ dirs
  end.

(** Modelled from the spec: the candidate path [root/suffix]. *)
Definition candidate (suffix root : string) : string :=
  (root ++ "/" ++ suffix)%string.

(** Modelled from the spec: [find], which [merge] ranges over and which is
    missing from the source; the spec's [findAll]: the candidates that
    exist, in the order of their roots. *)
Definition spec_find (suffix : string) (paths : list string) : list string :=
  filter exists_file (map (candidate suffix) (candidate_roots paths)).

(** Modelled from the spec: [findR], which [mergeR] ranges over and which
    is missing from the source: directories in reverse, then home last. *)
Definition spec_findR (suffix : string) (paths : list string) : list string :=
  match paths with
  | [] => []
  | h :: dirs =>
      filter exists_file
        (map (candidate suffix)
           (rev dirs ++ (if String.eqb h "" then [] else [h])))
  end.

End Finder.

(** ** Merge *)

(** [type MergeFunc func(string) error].  A Go closure may keep state
    between its calls; [St] is that state. *)
Definition MergeFunc (St : Type) : Type := string -> St -> error_value * St.

Section Merger.

(** [find] and [findR], which the source calls but does not define. *)
Variables find findR : string -> list string -> list string.

Context {St : Type}.

(** [for _, s := range ss { if err = f(s); err != nil { break } }], giving
    the value of [err] after the loop. *)
Fixpoint merge_range (f : MergeFunc St) (ss : list string) (st : St)
  : error_value * St :=
  match ss with
  | [] => (None, st)
  | s :: rest =>
      let (err, st') := f s st in
      match err with
      | Some _ => (err, st')
      | None => merge_range f rest st'
      end
  end.

(** [if err == Skip { return nil }; return err]. *)
Definition merge_result (r : error_value * St) : error_value * St :=
  let (err, st) := r in
  if error_eqb err (Some Skip) then (None, st) else (err, st).

(** [func merge(p string, f MergeFunc, paths ...string) error]. *)
Definition merge (p : string) (f : MergeFunc St) (paths : list string)
  (st : St) : error_value * St :=
  merge_result (merge_range f (find p paths) st).

(** [func mergeR(p string, f MergeFunc, paths ...string) error]. *)
Definition mergeR (p : string) (f : MergeFunc St) (paths : list string)
  (st : St) : error_value * St :=
  merge_result (merge_range f (findR p paths) st).

Definition MergeDataFiles (g : Globals) p f := merge p f (DataHome g :: DataDirs g).
Definition MergeDataFilesR (g : Globals) p f := mergeR p f (DataHome g :: DataDirs g).
Definition MergeConfigFiles (g : Globals) p f := merge p f (ConfigHome g :: ConfigDirs g).
Definition MergeConfigFilesR (g : Globals) p f := mergeR p f (ConfigHome g :: ConfigDirs g).

(** [f] returns [nil] on each path of [ss] in turn, which takes its state
    from [st] to [st']. *)
Inductive returns_nil (f : MergeFunc St) : St -> list string -> St -> Prop :=
| returns_nil_done st : returns_nil f st [] st
| returns_nil_next st s st1 rest st2 :
    f s st = (None, st1) ->
    returns_nil f st1 rest st2 ->
    returns_nil f st (s :: rest) st2.

(** [f] with a record of its calls: the paths it was invoked on, oldest
    first. *)
Definition traced (f : MergeFunc St) : MergeFunc (St * list string) :=
  fun s stc =>
    let (err, st') := f s (fst stc) in (err, (st', snd stc ++ [s])).

End Merger.

(** A callback that only returns [nil]. *)
Definition visit : MergeFunc unit := fun _ st => (None, st).

(** A callback for the examples: it counts its calls and returns [err] on
    the path [at_path]. *)
Definition fails_at (at_path : string) (err : error) : MergeFunc nat :=
  fun s n => (if String.eqb s at_path then Some err else None, S n).

(** The list ranged over in the examples: the paths as they are. *)
Definition as_given (p : string) (paths : list string) : list string := paths.

(** ** What resolution computes

    The values [init] leaves in the package variables, as functions of the
    environment; the lemmas below show that the code computes them. *)

(** The value [xdgPath] tests with [path.IsAbs], given the value [h] of
    [home]. *)
Definition scalar_candidate (environ : Env) (h env def : string) : string :=
  let x := os_Getenv environ env in
  if String.eqb x "" then
    if strings_Contains def "$HOME" then
      if negb (String.eqb h "") then strings_Replace_all def "$HOME" h else x
    else def
  else x.

Definition scalar_value (environ : Env) (h env def : string) : string :=
  let x := scalar_candidate environ h env def in
  if path_IsAbs x then x else "".

Definition scalar_diag (environ : Env) (h env def : string) : list string :=
  if path_IsAbs (scalar_candidate environ h env def) then []
  else [("no value set for " ++ env)%string].

(** The segments [xdgPaths] ranges over. *)
Definition list_segments (environ : Env) (env def : string) : list string :=
  let xs := os_Getenv environ env in
  strings_Split (if String.eqb xs "" then def else xs) ":".

Definition is_relative (x : string) : bool := negb (path_IsAbs x).

Definition ignoring (env x : string) : string :=
  ("ignoring " ++ env ++ " path element: " ++ x)%string.

Definition list_diag (environ : Env) (env def : string) : list string :=
  map (ignoring env) (filter is_relative (list_segments environ env def)).

(** [home] after [init]. *)
Definition home_value (environ : Env) : string :=
  let h := os_Getenv environ "HOME" in
  if path_IsAbs h then "" else h.

Definition home_diag (environ : Env) : list error :=
  if path_IsAbs (os_Getenv environ "HOME") then [ErrHomeInvalid] else [].

(** The texts of the errors [init] allocates, in the order of their
    allocation. *)
Definition diag_texts (environ : Env) : list string :=
  let h := home_value environ in
  scalar_diag environ h "XDG_CONFIG_HOME" "$HOME/.config"
  ++ scalar_diag environ h "XDG_DATA_HOME" "$HOME/.config"
  ++ scalar_diag environ h "XDG_CACHE_HOME" "$HOME/.config"
  ++ scalar_diag environ h "XDG_RUNTIME_DIR" ""
  ++ list_diag environ "XDG_CONFIG_DIRS" "/etc/xdg"
  ++ list_diag environ "XDG_DATA_DIRS" "/usr/local/share:/usr/share".

(** The errors [errors.New] makes for [texts], from address [next] on. *)
Fixpoint alloc_errors (texts : list string) (next : nat) : list error :=
  match texts with
  | [] => []
  | t :: ts => mkError next t :: alloc_errors ts (S next)
  end.

(** [g] after the errors for [texts] were allocated and appended. *)
Definition logged (texts : list string) (g : Globals) : Globals :=
  mkGlobals (home g) (ConfigHome g) (DataHome g) (CacheHome g)
    (RuntimeDir g) (ConfigDirs g) (DataDirs g)
    (Errors g ++ alloc_errors texts (heap_next g))
    (heap_next g + length texts).

(** The number of bytes [c] in [s]. *)
Fixpoint count_byte (c : ascii) (s : string) : nat :=
  match s with
  | EmptyString => 0
  | String b s' => (if Ascii.eqb b c then 1 else 0) + count_byte c s'
  end.

(** The text [xdgPath] logs for the variable [env] whose candidate value
    is [v]. *)
Definition missing (env v : string) : list string :=
  if path_IsAbs v then [] else [("no value set for " ++ env)%string].

(** The heap and the log agree: every logged error lies below the next free
    address, and the package's own two errors are allocated. *)
Definition heap_ok (g : Globals) : Prop :=
  first_free <= heap_next g
  /\ forall e, In e (Errors g) -> err_ptr e < heap_next g.

(** The package variables other than the log and the heap. *)
Definition same_dirs (g1 g2 : Globals) : Prop :=
  home g1 = home g2
  /\ ConfigHome g1 = ConfigHome g2
  /\ DataHome g1 = DataHome g2
  /\ CacheHome g1 = CacheHome g2
  /\ RuntimeDir g1 = RuntimeDir g2
  /\ ConfigDirs g1 = ConfigDirs g2
  /\ DataDirs g1 = DataDirs g2.

(** ** Strings *)

Lemma strings_Split_nonempty s sep : strings_Split s sep <> [].
Proof.
  destruct s as [|c s]; simpl; [discriminate|].
  destruct (Ascii.eqb c sep); [discriminate|].
  destruct (strings_Split s sep); discriminate.
Qed.

(** Joining the segments with the separator gives the string back. *)
Lemma strings_Join_Split s sep : strings_Join (strings_Split s sep) sep = s.
Proof.
  induction s as [|c s IH]; simpl; [reflexivity|].
  destruct (Ascii.eqb_spec c sep) as [->|Hne].
  - pose proof (strings_Split_nonempty s sep) as Hn.
    simpl. destruct (strings_Split s sep) as [|seg segs]; [congruence|].
    now rewrite IH.
  - pose proof (strings_Split_nonempty s sep) as Hn.
    destruct (strings_Split s sep) as [|seg segs]; [congruence|].
    destruct segs as [|seg' segs].
    + simpl in *. now rewrite IH.
    + change (strings_Join (String c seg :: seg' :: segs) sep)
        with (String c (strings_Join (seg :: seg' :: segs) sep)).
      now rewrite IH.
Qed.

(** No segment contains the separator. *)
Lemma strings_Split_no_sep s sep seg :
  In seg (strings_Split s sep) -> strings_Contains seg (String sep "") = false.
Proof.
  revert seg. induction s as [|c s IH]; simpl; intros seg Hin.
  - destruct Hin as [<-|[]]. reflexivity.
  - destruct (Ascii.eqb_spec c sep) as [->|Hne].
    + destruct Hin as [<-|Hin]; [reflexivity|now apply IH].
    + pose proof (strings_Split_nonempty s sep) as Hn.
      destruct (strings_Split s sep) as [|seg0 segs]; [congruence|].
      destruct Hin as [<-|Hin].
      * simpl. specialize (IH seg0 (or_introl eq_refl)).
        rewrite IH. destruct (Ascii.ascii_dec sep c) as [->|_]; [congruence|].
        reflexivity.
      * apply IH. now right.
Qed.

Lemma prefix_empty s : String.prefix "" s = true.
Proof. now destruct s. Qed.

Lemma prefix_append old rest : String.prefix old (old ++ rest) = true.
Proof.
  induction old as [|c old IH]; [apply prefix_empty|].
  cbn [String.append String.prefix].
  destruct (Ascii.ascii_dec c c); [exact IH|congruence].
Qed.

(** The bytes of a matched occurrence are passed over. *)
Lemma replace_from_skip old new a rest :
  replace_from old new (a ++ rest) (String.length a)
  = replace_from old new rest 0.
Proof.
  induction a as [|c a IH]; cbn [String.append String.length].
  - now destruct rest.
  - cbn [replace_from]. exact IH.
Qed.

(** A string without an occurrence of [old] is left as it is. *)
Lemma replace_from_absent old new s :
  strings_Contains s old = false -> replace_from old new s 0 = s.
Proof.
  induction s as [|c s IH]; [reflexivity|].
  cbn [strings_Contains]. intros Hn.
  apply orb_false_iff in Hn as [Hp Hn].
  cbn [replace_from]. rewrite Hp. f_equal. now apply IH.
Qed.

(** A template that starts with [old] and has no other occurrence of it is
    replaced at its head. *)
Lemma strings_Replace_all_head old new rest :
  old <> "" ->
  strings_Contains rest old = false ->
  strings_Replace_all (old ++ rest) old new = (new ++ rest)%string.
Proof.
  intros Hne Hn. unfold strings_Replace_all.
  destruct old as [|c old]; [congruence|].
  pose proof (prefix_append (String c old) rest) as Hp.
  cbn [String.append] in *. cbn [replace_from]. rewrite Hp.
  cbn [String.length]. rewrite Nat.sub_1_r. cbn [Nat.pred]. 
  rewrite replace_from_skip. f_equal. now apply replace_from_absent.
Qed.

(** ** The log *)

Lemma alloc_errors_texts texts next :
  map err_text (alloc_errors texts next) = texts.
Proof.
  revert next. induction texts as [|t ts IH]; intros next; simpl;
    [reflexivity | now rewrite IH].
Qed.

Lemma alloc_errors_length texts next :
  length (alloc_errors texts next) = length texts.
Proof. rewrite <- (length_map err_text). now rewrite alloc_errors_texts. Qed.

Lemma alloc_errors_app t1 t2 next :
  alloc_errors (t1 ++ t2) next
  = alloc_errors t1 next ++ alloc_errors t2 (next + length t1).
Proof.
  revert next. induction t1 as [|t ts IH]; intros next; simpl.
  - now rewrite Nat.add_0_r.
  - rewrite IH. now rewrite Nat.add_succ_r.
Qed.

(** Every allocated error lies at an address from [next] on. *)
Lemma alloc_errors_fresh texts next e :
  In e (alloc_errors texts next) -> next <= err_ptr e.
Proof.
  revert next. induction texts as [|t ts IH]; intros next; simpl; [tauto|].
  intros [<-|Hin]; [simpl; lia|]. apply IH in Hin. lia.
Qed.

Lemma logged_nil g : logged [] g = g.
Proof.
  destruct g. unfold logged. simpl. now rewrite app_nil_r, Nat.add_0_r.
Qed.

Lemma logged_app t1 t2 g : logged t2 (logged t1 g) = logged (t1 ++ t2) g.
Proof.
  unfold logged. simpl.
  now rewrite alloc_errors_app, <- app_assoc, length_app, Nat.add_assoc.
Qed.

(** ** The steps of resolution *)

Lemma xdgPath_run environ env def g :
  xdgPath environ env def g
  = (scalar_value environ (home g) env def,
     logged (scalar_diag environ (home g) env def) g).
Proof.
  unfold xdgPath, scalar_value, scalar_diag, bind, read.
  fold (scalar_candidate environ (home g) env def).
  destruct (path_IsAbs (scalar_candidate environ (home g) env def)).
  - unfold ret. now rewrite logged_nil.
  - unfold new_error, append_Errors, ret, logged. simpl.
    now rewrite Nat.add_1_r.
Qed.

Lemma xdgPaths_loop_run env segs fs g :
  xdgPaths_loop env segs fs g
  = (fs ++ filter path_IsAbs segs,
     logged (map (ignoring env) (filter is_relative segs)) g).
Proof.
  revert fs g. induction segs as [|x segs IH]; intros fs g; simpl.
  - unfold ret. now rewrite app_nil_r, logged_nil.
  - unfold is_relative at 1. destruct (path_IsAbs x); simpl.
    + rewrite IH. now rewrite <- app_assoc.
    + unfold bind at 1. unfold new_error at 1. simpl.
      unfold bind at 1. unfold append_Errors at 1. rewrite IH.
      f_equal. unfold logged. simpl.
      now rewrite <- app_assoc, Nat.add_succ_r.
Qed.

Lemma xdgPaths_run environ env def g :
  xdgPaths environ env def g
  = (filter path_IsAbs (list_segments environ env def),
     logged (list_diag environ env def) g).
Proof. unfold xdgPaths. now rewrite xdgPaths_loop_run. Qed.

(** The package variables after [init], field by field. *)
Lemma resolve_eq environ g :
  resolve environ g =
  let h := home_value environ in
  mkGlobals h
    (scalar_value environ h "XDG_CONFIG_HOME" "$HOME/.config")
    (scalar_value environ h "XDG_DATA_HOME" "$HOME/.config")
    (scalar_value environ h "XDG_CACHE_HOME" "$HOME/.config")
    (scalar_value environ h "XDG_RUNTIME_DIR" "")
    (filter path_IsAbs (list_segments environ "XDG_CONFIG_DIRS" "/etc/xdg"))
    (filter path_IsAbs
       (list_segments environ "XDG_DATA_DIRS" "/usr/local/share:/usr/share"))
    (Errors g ++ home_diag environ
       ++ alloc_errors (diag_texts environ) (heap_next g))
    (heap_next g + length (diag_texts environ)).
Proof.
  unfold resolve, init.
  unfold bind at 1. unfold set_home at 1.
  unfold bind at 1. unfold read at 1. cbn [home].
  unfold bind at 1.
  set (g0 := mkGlobals (os_Getenv environ "HOME") _ _ _ _ _ _ _ _).
  assert (Hhome : exists g1,
    (if path_IsAbs (os_Getenv environ "HOME")
     then set_home "";; append_Errors ErrHomeInvalid else ret tt) g0 = (tt, g1)
    /\ home g1 = home_value environ
    /\ Errors g1 = Errors g ++ home_diag environ
    /\ heap_next g1 = heap_next g).
  { unfold home_value, home_diag.
    destruct (path_IsAbs (os_Getenv environ "HOME")).
    - eexists. split; [reflexivity|]. now cbn.
    - exists g0. split; [reflexivity|]. cbn. now rewrite app_nil_r. }
  destruct Hhome as (g1 & -> & Hh & He & Hn). clear g0.
  destruct g1 as [h0 c0 d0 k0 r0 cd0 dd0 e0 n0]. cbn in Hh, He, Hn. subst h0 e0 n0.
  repeat (unfold bind at 1;
          first [ rewrite xdgPath_run | rewrite xdgPaths_run
                | unfold set_ConfigHome at 1 | unfold set_DataHome at 1
                | unfold set_CacheHome at 1 | unfold set_RuntimeDir at 1
                | unfold set_ConfigDirs at 1 | unfold set_DataDirs at 1 ];
          unfold logged;
          cbn [home ConfigHome DataHome CacheHome RuntimeDir ConfigDirs
               DataDirs Errors heap_next fst snd]).
  unfold set_DataDirs.
  cbn [home ConfigHome DataHome CacheHome RuntimeDir ConfigDirs DataDirs
       Errors heap_next fst snd].
  unfold diag_texts. cbv zeta.
  f_equal.
  - rewrite !alloc_errors_app, ?length_app, <- ?app_assoc, ?Nat.add_assoc.
    reflexivity.
  - rewrite !length_app, !Nat.add_assoc. reflexivity.
Qed.

(** ** Facts about the resolved values *)

Lemma path_IsAbs_append h rest :
  h <> "" -> path_IsAbs (h ++ rest) = path_IsAbs h.
Proof. destruct h; [congruence|reflexivity]. Qed.

(** [home] is never absolute after [init]: an absolute [HOME] is the one
    that is discarded. *)
Lemma home_value_not_absolute environ : path_IsAbs (home_value environ) = false.
Proof.
  unfold home_value.
  destruct (path_IsAbs (os_Getenv environ "HOME")) eqn:E; [reflexivity|exact E].
Qed.

(** A scalar is empty or absolute. *)
Lemma scalar_value_absolute environ h env def :
  scalar_value environ h env def <> "" ->
  path_IsAbs (scalar_value environ h env def) = true.
Proof.
  unfold scalar_value.
  destruct (path_IsAbs (scalar_candidate environ h env def)) eqn:E;
    [intros _; exact E | congruence].
Qed.

(** With its variable unset or empty, a scalar whose default starts with
    ["$HOME"] comes out empty when [home] is not absolute. *)
Lemma scalar_value_templated environ h env rest :
  os_Getenv environ env = "" ->
  path_IsAbs h = false ->
  strings_Contains rest "$HOME" = false ->
  scalar_value environ h env ("$HOME" ++ rest) = "".
Proof.
  intros Hx Hh Hrest. unfold scalar_value, scalar_candidate.
  rewrite Hx. cbn [String.eqb].
  assert (Hc : strings_Contains ("$HOME" ++ rest) "$HOME" = true).
  { pose proof (prefix_append "$HOME" rest) as Hp.
    cbn [String.append] in *. cbn [strings_Contains]. now rewrite Hp. }
  rewrite Hc.
  destruct (String.eqb_spec h "") as [->|Hne]; cbn [negb]; [reflexivity|].
  rewrite strings_Replace_all_head by (discriminate || assumption).
  rewrite path_IsAbs_append by assumption. now rewrite Hh.
Qed.

Lemma resolve_home environ g : home (resolve environ g) = home_value environ.
Proof. now rewrite resolve_eq. Qed.

(** The three templated scalars are empty whenever their variable is unset
    or empty, whatever [HOME] holds. *)
Lemma resolve_templated_scalars_empty environ g :
  (os_Getenv environ "XDG_CONFIG_HOME" = "" -> ConfigHome (resolve environ g) = "")
  /\ (os_Getenv environ "XDG_DATA_HOME" = "" -> DataHome (resolve environ g) = "")
  /\ (os_Getenv environ "XDG_CACHE_HOME" = "" -> CacheHome (resolve environ g) = "").
Proof.
  rewrite resolve_eq. cbn [ConfigHome DataHome CacheHome].
  repeat split; intros Hx;
    apply (scalar_value_templated environ _ _ "/.config" Hx
             (home_value_not_absolute environ) eq_refl).
Qed.

(** The scalars and the list elements are absolute. *)
Lemma resolve_dirs_absolute environ g :
  let r := resolve environ g in
  (ConfigHome r <> "" -> path_IsAbs (ConfigHome r) = true)
  /\ (DataHome r <> "" -> path_IsAbs (DataHome r) = true)
  /\ (CacheHome r <> "" -> path_IsAbs (CacheHome r) = true)
  /\ (RuntimeDir r <> "" -> path_IsAbs (RuntimeDir r) = true)
  /\ (forall d, In d (ConfigDirs r) -> path_IsAbs d = true)
  /\ (forall d, In d (DataDirs r) -> path_IsAbs d = true).
Proof.
  cbv zeta. rewrite resolve_eq.
  cbn [ConfigHome DataHome CacheHome RuntimeDir ConfigDirs DataDirs].
  repeat split; try apply scalar_value_absolute;
    intros d Hd; apply filter_In in Hd; tauto.
Qed.

(** A non-empty [home] is a relative path. *)
Lemma resolve_home_relative environ g :
  path_IsAbs (home (resolve environ g)) = false.
Proof. rewrite resolve_home. apply home_value_not_absolute. Qed.

(** [ErrHomeInvalid] is logged exactly when [HOME] is absolute. *)
Lemma resolve_ErrHomeInvalid environ g :
  first_free <= heap_next g ->
  ~ In ErrHomeInvalid (Errors g) ->
  (In ErrHomeInvalid (Errors (resolve environ g))
   <-> path_IsAbs (os_Getenv environ "HOME") = true).
Proof.
  intros Hfree Hnot. rewrite resolve_eq. cbn [Errors]. unfold home_diag.
  rewrite !in_app_iff. split.
  - intros [H|[H|H]]; [tauto| |].
    + destruct (path_IsAbs (os_Getenv environ "HOME")); [reflexivity|destruct H].
    + apply alloc_errors_fresh in H. unfold first_free in Hfree.
      cbn in H. lia.
  - intros ->. right. left. now left.
Qed.

Lemma resolve_ConfigDirs environ g :
  ConfigDirs (resolve environ g)
  = filter path_IsAbs (list_segments environ "XDG_CONFIG_DIRS" "/etc/xdg").
Proof. now rewrite resolve_eq. Qed.

Lemma resolve_DataDirs environ g :
  DataDirs (resolve environ g)
  = filter path_IsAbs
      (list_segments environ "XDG_DATA_DIRS" "/usr/local/share:/usr/share").
Proof. now rewrite resolve_eq. Qed.

(** The default that [init] passes for [XDG_DATA_HOME] and [XDG_CACHE_HOME]
    is the one of [XDG_CONFIG_HOME]: were [home] an absolute path when
    [xdgPath] runs, both would come out as [home/.config]. *)
Lemma xdgPath_data_cache_default environ g :
  path_IsAbs (home g) = true ->
  os_Getenv environ "XDG_DATA_HOME" = "" ->
  os_Getenv environ "XDG_CACHE_HOME" = "" ->
  fst (xdgPath environ "XDG_DATA_HOME" "$HOME/.config" g)
    = (home g ++ "/.config")%string
  /\ fst (xdgPath environ "XDG_CACHE_HOME" "$HOME/.config" g)
    = (home g ++ "/.config")%string.
Proof.
  intros Habs Hd Hc. rewrite !xdgPath_run. cbn [fst].
  assert (Hne : home g <> "") by (destruct (home g); [discriminate|congruence]).
  unfold scalar_value, scalar_candidate. rewrite Hd, Hc. cbn [String.eqb].
  change (strings_Contains "$HOME/.config" "$HOME") with true. cbv iota.
  destruct (String.eqb_spec (home g) ""); [contradiction|]. cbn [negb].
  change (strings_Replace_all "$HOME/.config" "$HOME" (home g))
    with (strings_Replace_all ("$HOME" ++ "/.config") "$HOME" (home g)).
  rewrite (strings_Replace_all_head "$HOME" (home g) "/.config")
    by (discriminate || reflexivity).
  rewrite path_IsAbs_append, Habs by assumption. now split.
Qed.

(** C1 (fails on the code).  With [HOME] an absolute path and
    [XDG_CONFIG_HOME], [XDG_DATA_HOME], [XDG_CACHE_HOME] unset or empty,
    [init] discards [HOME] and leaves [ConfigHome], [DataHome] and
    [CacheHome] empty, where the claim expects [HOME/.config],
    [HOME/.local/share] and [HOME/.cache]. *)
Theorem init_absolute_HOME_loses_defaults environ g :
  path_IsAbs (os_Getenv environ "HOME") = true ->
  os_Getenv environ "XDG_CONFIG_HOME" = "" ->
  os_Getenv environ "XDG_DATA_HOME" = "" ->
  os_Getenv environ "XDG_CACHE_HOME" = "" ->
  let r := resolve environ g in
  home r = "" /\ ConfigHome r = "" /\ DataHome r = "" /\ CacheHome r = "".
Proof.
  intros Habs Hc Hd Hk r. subst r.
  destruct (resolve_templated_scalars_empty environ g) as (H1 & H2 & H3).
  rewrite resolve_home. unfold home_value. rewrite Habs. auto.
Qed.

Lemma init_absolute_HOME_loses_defaults_witness :
  let r := resolve [("HOME", "/home/u")] zero_Globals in
  home r = "" /\ ConfigHome r = "" /\ DataHome r = "" /\ CacheHome r = "".
Proof.
  apply (init_absolute_HOME_loses_defaults [("HOME", "/home/u")] zero_Globals);
    reflexivity.
Defined.

(** C2 (fails on the code).  [init] discards [HOME] and logs
    [ErrHomeInvalid] exactly when [HOME] is an absolute path; a relative
    [HOME] is kept as [home] and an empty or unset one passes without the
    diagnostic.  The claim expects the opposite test. *)
Theorem init_HOME_check_inverted environ g :
  first_free <= heap_next g ->
  ~ In ErrHomeInvalid (Errors g) ->
  let H := os_Getenv environ "HOME" in
  let r := resolve environ g in
  home r = (if path_IsAbs H then "" else H)
  /\ (In ErrHomeInvalid (Errors r) <-> path_IsAbs H = true).
Proof.
  intros Hfree Hnot H r. split.
  - subst r. now rewrite resolve_home.
  - now apply resolve_ErrHomeInvalid.
Qed.

Lemma init_HOME_check_inverted_witness :
  let r := resolve [("HOME", "/home/u")] zero_Globals in
  home r = ""
  /\ (In ErrHomeInvalid (Errors r)
      <-> path_IsAbs (os_Getenv [("HOME", "/home/u")] "HOME") = true).
Proof.
  apply (init_HOME_check_inverted [("HOME", "/home/u")] zero_Globals).
  - unfold zero_Globals, first_free. simpl. lia.
  - simpl. tauto.
Defined.

(** The scenarios of the specification, run on the code. *)
Example init_relative_HOME :
  let r := resolve [("HOME", "relative/path")] zero_Globals in
  home r = "relative/path"
  /\ map err_text (Errors r)
     = ["no value set for XDG_CONFIG_HOME"; "no value set for XDG_DATA_HOME";
        "no value set for XDG_CACHE_HOME"; "no value set for XDG_RUNTIME_DIR"].
Proof. split; reflexivity. Qed.

Example init_unset_HOME :
  let r := resolve [] zero_Globals in
  home r = "" /\ ~ In ErrHomeInvalid (Errors r).
Proof.
  split; [reflexivity|]. cbn. unfold ErrHomeInvalid. cbn.
  intros H. repeat (destruct H as [H|H]; [discriminate H|]). exact H.
Qed.

Example init_absolute_HOME :
  let r := resolve [("HOME", "/home/u")] zero_Globals in
  RuntimeDir r = "" /\ ConfigDirs r = ["/etc/xdg"]
  /\ DataDirs r = ["/usr/local/share"; "/usr/share"]
  /\ map err_text (Errors r)
     = ["environment variable HOME is invalid or not set";
        "no value set for XDG_CONFIG_HOME"; "no value set for XDG_DATA_HOME";
        "no value set for XDG_CACHE_HOME"; "no value set for XDG_RUNTIME_DIR"].
Proof. repeat split; reflexivity. Qed.

(** C3.  When the variable [env] holds a non-empty string, [xdgPaths]
    returns exactly the absolute segments of its split at [":"], in their
    order; it appends to [Errors] one error per other segment, with the
    text ["ignoring <env> path element: <segment>"], in the order of the
    segments; and every segment is looked at, the segments being those of
    the variable's value. *)
Theorem xdgPaths_keeps_absolute_segments environ env def g :
  os_Getenv environ env <> "" ->
  let segs := strings_Split (os_Getenv environ env) ":" in
  let r := xdgPaths environ env def g in
  strings_Join segs ":" = os_Getenv environ env
  /\ fst r = filter path_IsAbs segs
  /\ exists new,
       Errors (snd r) = Errors g ++ new
       /\ map err_text new
          = map (fun x => "ignoring " ++ env ++ " path element: " ++ x)%string
              (filter (fun x => negb (path_IsAbs x)) segs).
Proof.
  intros Hset segs r. subst segs r. rewrite xdgPaths_run.
  unfold list_diag, list_segments.
  destruct (String.eqb_spec (os_Getenv environ env) ""); [contradiction|].
  split; [apply strings_Join_Split|]. split; [reflexivity|].
  eexists. split; [reflexivity|]. now rewrite alloc_errors_texts.
Qed.

Lemma xdgPaths_keeps_absolute_segments_witness :
  let environ := [("XDG_CONFIG_DIRS", "/a:b::/c:d/e")] in
  let r := xdgPaths environ "XDG_CONFIG_DIRS" "/etc/xdg" zero_Globals in
  fst r = ["/a"; "/c"]
  /\ map err_text (Errors (snd r))
     = ["ignoring XDG_CONFIG_DIRS path element: b";
        "ignoring XDG_CONFIG_DIRS path element: ";
        "ignoring XDG_CONFIG_DIRS path element: d/e"].
Proof.
  cbv zeta.
  destruct (xdgPaths_keeps_absolute_segments
              [("XDG_CONFIG_DIRS", "/a:b::/c:d/e")] "XDG_CONFIG_DIRS"
              "/etc/xdg" zero_Globals) as (_ & Hv & new & He & Ht).
  - simpl. discriminate.
  - split; [exact Hv|]. rewrite He. simpl. exact Ht.
Defined.

(** C8.  Resolution depends on the environment alone: run in the same
    environment from any two states of the package variables, [init]
    leaves the same [home], the same six directory values, and appends to
    the log it found diagnostics with the same texts in the same order
    (the same errors, when both heaps were equally full); the log it found
    is kept in front. *)
Theorem resolve_deterministic environ g1 g2 :
  let r1 := resolve environ g1 in
  let r2 := resolve environ g2 in
  home r1 = home r2
  /\ ConfigHome r1 = ConfigHome r2
  /\ DataHome r1 = DataHome r2
  /\ CacheHome r1 = CacheHome r2
  /\ RuntimeDir r1 = RuntimeDir r2
  /\ ConfigDirs r1 = ConfigDirs r2
  /\ DataDirs r1 = DataDirs r2
  /\ exists d1 d2,
       Errors r1 = Errors g1 ++ d1
       /\ Errors r2 = Errors g2 ++ d2
       /\ map err_text d1 = map err_text d2
       /\ (heap_next g1 = heap_next g2 -> d1 = d2).
Proof.
  cbv zeta. rewrite !resolve_eq. cbv zeta.
  cbn [home ConfigHome DataHome CacheHome RuntimeDir ConfigDirs DataDirs
       Errors].
  repeat (split; [reflexivity|]).
  do 2 eexists. repeat (split; [reflexivity|]). split.
  - now rewrite !map_app, !alloc_errors_texts.
  - now intros ->.
Qed.

(** C9 (fails on the code for [home]).  A relative [HOME] is kept: [home]
    is then non-empty and not an absolute path. *)
Theorem init_keeps_relative_home :
  let r := resolve [("HOME", "relative/path")] zero_Globals in
  home r = "relative/path" /\ home r <> "" /\ path_IsAbs (home r) = false.
Proof.
  assert (E : home (resolve [("HOME", "relative/path")] zero_Globals)
              = "relative/path") by (vm_compute; reflexivity).
  cbv zeta. rewrite E. split; [reflexivity|]. split; [discriminate|reflexivity].
Qed.

(** ** Lookup and merge *)

(** The [Find*] functions find nothing, whatever the file system holds. *)
Lemma Find_nothing p :
  FindConfigFiles p = [] /\ FindDataFiles p = []
  /\ FindConfigFile p = "" /\ FindDataFile p = ""
  /\ FindCacheFile p = "" /\ FindRuntimeFile p = "".
Proof. repeat split. Qed.

(** The backward order is the reverse of the forward order. *)
Lemma spec_findR_rev exists_file p paths :
  spec_findR exists_file p paths = rev (spec_find exists_file p paths).
Proof.
  unfold spec_findR, spec_find, candidate_roots.
  destruct paths as [|h dirs]; [reflexivity|].
  assert (Hrev : forall (l : list string),
             rev (filter exists_file l) = filter exists_file (rev l)).
  { induction l as [|x l IH]; [reflexivity|]. simpl.
    rewrite filter_app. simpl.
    destruct (exists_file x); simpl; rewrite IH;
      [reflexivity | now rewrite app_nil_r]. }
  rewrite Hrev, <- map_rev, rev_app_distr. do 2 f_equal.
  now destruct (String.eqb h "").
Qed.

Section MergeLoop.

Context {St : Type}.
Variable f : MergeFunc St.

(** The loop visits the paths on which [f] returns [nil]. *)
Lemma merge_range_all st ss st1 :
  returns_nil f st ss st1 -> merge_range f ss st = (None, st1).
Proof.
  induction 1 as [st|st s st1 rest st2 Hf _ IH]; simpl;
    [reflexivity | now rewrite Hf].
Qed.

(** The loop breaks at the first path on which [f] returns an error. *)
Lemma merge_range_break st pre st1 c e st2 post :
  returns_nil f st pre st1 ->
  f c st1 = (Some e, st2) ->
  merge_range f (pre ++ c :: post) st = (Some e, st2).
Proof.
  intros Hpre Hc.
  induction Hpre as [st|st s st1 rest st2' Hf _ IH]; simpl.
  - now rewrite Hc.
  - rewrite Hf. now apply IH.
Qed.

End MergeLoop.

Section Traced.

Context {St : Type}.
Variable f : MergeFunc St.

Lemma traced_returns_nil st ss st1 calls :
  returns_nil f st ss st1 ->
  returns_nil (traced f) (st, calls) ss (st1, calls ++ ss).
Proof.
  intros H. revert calls.
  induction H as [st|st s st1 rest st2 Hf _ IH]; intros calls.
  - rewrite app_nil_r. constructor.
  - econstructor.
    + unfold traced. cbn [fst snd]. rewrite Hf. reflexivity.
    + replace (calls ++ s :: rest) with ((calls ++ [s]) ++ rest)
        by now rewrite <- app_assoc.
      apply IH.
Qed.

Lemma traced_error c st1 e st2 calls :
  f c st1 = (Some e, st2) ->
  traced f c (st1, calls) = (Some e, (st2, calls ++ [c])).
Proof. intros Hf. unfold traced. cbn [fst snd]. now rewrite Hf. Qed.

(** The traced loop, broken at [c]: the calls are those on [pre] and [c]. *)
Lemma traced_merge_range_break st pre st1 c e st2 post :
  returns_nil f st pre st1 ->
  f c st1 = (Some e, st2) ->
  merge_range (traced f) (pre ++ c :: post) (st, [])
  = (Some e, (st2, pre ++ [c])).
Proof.
  intros Hpre Hc.
  apply merge_range_break with (st1 := (st1, pre)).
  - apply (traced_returns_nil st pre st1 [] Hpre).
  - now apply traced_error.
Qed.

Lemma traced_merge_range_all st ss st1 :
  returns_nil f st ss st1 ->
  merge_range (traced f) ss (st, []) = (None, (st1, ss)).
Proof.
  intros H. apply merge_range_all.
  apply (traced_returns_nil st ss st1 [] H).
Qed.

End Traced.

(** A callback that never returns an error returns [nil] along any list. *)
Lemma never_fails_returns_nil {St} (f : MergeFunc St) ss st :
  (forall s st0, fst (f s st0) = None) ->
  exists st1, returns_nil f st ss st1.
Proof.
  intros Hf. revert st. induction ss as [|s ss IH]; intros st.
  - exists st. constructor.
  - destruct (f s st) as [err st'] eqn:E.
    pose proof (Hf s st) as Hn. rewrite E in Hn. cbn in Hn. subst err.
    destruct (IH st') as [st1 H1]. exists st1. econstructor; eauto.
Qed.

(** [mergeR] is the loop of [merge] over the other list. *)
Lemma mergeR_merge {St} range p (f : MergeFunc St) paths st :
  mergeR range p f paths st = merge range p f paths st.
Proof. reflexivity. Qed.

Lemma merge_break {St} range p (f : MergeFunc St) paths st pre c post st1 e st2 :
  range p paths = pre ++ c :: post ->
  returns_nil f st pre st1 ->
  f c st1 = (Some e, st2) ->
  merge range p f paths st
  = (if Nat.eqb (err_ptr e) (err_ptr Skip) then None else Some e, st2).
Proof.
  intros Hr Hpre Hc. unfold merge. rewrite Hr.
  rewrite (merge_range_break f st pre st1 c e st2 post Hpre Hc).
  unfold merge_result, error_eqb.
  now destruct (Nat.eqb (err_ptr e) (err_ptr Skip)).
Qed.

Lemma merge_all {St} range p (f : MergeFunc St) paths st st1 :
  returns_nil f st (range p paths) st1 ->
  merge range p f paths st = (None, st1).
Proof.
  intros H. unfold merge. now rewrite (merge_range_all f st _ st1 H).
Qed.

(** The calls of a merge whose callback never fails are the candidates, in
    the order of the list ranged over. *)
Lemma merge_never_fails_calls {St} range p (f : MergeFunc St) paths st :
  (forall s st0, fst (f s st0) = None) ->
  fst (merge range p (traced f) paths (st, [])) = None
  /\ snd (snd (merge range p (traced f) paths (st, []))) = range p paths.
Proof.
  intros Hf.
  destruct (never_fails_returns_nil f (range p paths) st Hf) as [st1 H1].
  unfold merge. rewrite (traced_merge_range_all f st _ st1 H1). now split.
Qed.

(** C4 (fails on the code).  [FindConfigFile] and [FindConfigFiles] return
    the zero value without looking at the file system: with the default
    directories and a file at [/etc/xdg/app.conf], the lookup the
    specification describes yields that path, and the code yields the empty
    string and the empty list. *)
Theorem FindConfigFile_finds_nothing :
  spec_find (String.eqb "/etc/xdg/app.conf") "app.conf"
    (ConfigHome (resolve [] zero_Globals)
       :: ConfigDirs (resolve [] zero_Globals))
  = ["/etc/xdg/app.conf"]
  /\ FindConfigFile "app.conf" = ""
  /\ FindConfigFiles "app.conf" = [].
Proof. repeat split; vm_compute; reflexivity. Qed.

(** C5.  With the lookup of the specification and a callback that never
    fails, [mergeR] over home [H] and directories [A], [B] calls the
    callback on the existing candidates under [B], then [A], then [H]
    ([H] left out when empty), which is the reverse of the calls of
    [merge], and it returns [nil]. *)
Theorem mergeR_visits_in_reverse exists_file {St} (f : MergeFunc St) st p H A B :
  (forall s st0, fst (f s st0) = None) ->
  snd (snd (mergeR (spec_findR exists_file) p (traced f) [H; A; B] (st, [])))
  = filter exists_file
      (map (candidate p) ([B; A] ++ (if String.eqb H "" then [] else [H])))
  /\ snd (snd (mergeR (spec_findR exists_file) p (traced f) [H; A; B] (st, [])))
     = rev (snd (snd (merge (spec_find exists_file) p (traced f) [H; A; B]
                        (st, []))))
  /\ fst (mergeR (spec_findR exists_file) p (traced f) [H; A; B] (st, []))
     = None.
Proof.
  intros Hf.
  change (@mergeR) with (@merge).
  destruct (merge_never_fails_calls (spec_findR exists_file) p f [H; A; B] st Hf)
    as [Herr Hcalls].
  destruct (merge_never_fails_calls (spec_find exists_file) p f [H; A; B] st Hf)
    as [_ Hforw].
  rewrite Hcalls, Hforw, Herr. split; [reflexivity|].
  split; [apply spec_findR_rev | reflexivity].
Qed.

Lemma mergeR_visits_in_reverse_witness :
  snd (snd (mergeR (spec_findR (fun _ => true)) "app.conf" (traced visit)
              ["/home/u/.config"; "/etc/xdg"; "/usr/etc"] (tt, [])))
  = ["/usr/etc/app.conf"; "/etc/xdg/app.conf"; "/home/u/.config/app.conf"].
Proof.
  apply (mergeR_visits_in_reverse (fun _ => true) visit tt "app.conf"
           "/home/u/.config" "/etc/xdg" "/usr/etc").
  reflexivity.
Defined.

(** C6.  [range] is the list function ranged over: [find] for [merge],
    [findR] for [mergeR].  If the callback returns [nil] on the candidates
    [pre] and [Skip] on the next candidate [c], the merge returns [nil];
    the callback has been called on [pre] and [c] and on none of the
    candidates [post] after [c], and its state is the one it left at
    [c]. *)
Theorem merge_stops_at_Skip {St} range p (f : MergeFunc St) paths st
    pre c post st1 st2 :
  range p paths = pre ++ c :: post ->
  returns_nil f st pre st1 ->
  f c st1 = (Some Skip, st2) ->
  merge range p (traced f) paths (st, []) = (None, (st2, pre ++ [c]))
  /\ mergeR range p (traced f) paths (st, []) = (None, (st2, pre ++ [c])).
Proof.
  intros Hr Hpre Hc.
  assert (merge range p (traced f) paths (st, [])
          = (None, (st2, pre ++ [c]))) as Hm; [|split; exact Hm].
  unfold merge. rewrite Hr.
  now rewrite (traced_merge_range_break f st pre st1 c Skip st2 post Hpre Hc).
Qed.

Lemma merge_stops_at_Skip_witness :
  merge as_given "x" (traced (fails_at "/a/x" Skip)) ["/h/x"; "/a/x"; "/b/x"]
    (0, [])
  = (None, (2, ["/h/x"; "/a/x"])).
Proof.
  apply (merge_stops_at_Skip as_given "x" (fails_at "/a/x" Skip)
           ["/h/x"; "/a/x"; "/b/x"] 0 ["/h/x"] "/a/x" ["/b/x"] 1 2).
  - reflexivity.
  - econstructor; [reflexivity|constructor].
  - reflexivity.
Defined.

(** C7.  [range] is as in C6.  If the callback returns [nil] on the
    candidates [pre] and an error [e] that is not [Skip] on the next
    candidate [c], the merge returns [e] itself, the callback having been
    called on [pre] and [c] only; if the callback returns [nil] on every
    candidate, the merge returns [nil], the callback having been called on
    all of them in order. *)
Theorem merge_propagates_error {St} range p (f : MergeFunc St) paths st :
  (forall pre c post st1 st2 e,
      range p paths = pre ++ c :: post ->
      returns_nil f st pre st1 ->
      f c st1 = (Some e, st2) ->
      error_eqb (Some e) (Some Skip) = false ->
      merge range p (traced f) paths (st, []) = (Some e, (st2, pre ++ [c]))
      /\ mergeR range p (traced f) paths (st, [])
         = (Some e, (st2, pre ++ [c])))
  /\ (forall st1,
      returns_nil f st (range p paths) st1 ->
      merge range p (traced f) paths (st, []) = (None, (st1, range p paths))
      /\ mergeR range p (traced f) paths (st, [])
         = (None, (st1, range p paths))).
Proof.
  split.
  - intros pre c post st1 st2 e Hr Hpre Hc Hne.
    assert (merge range p (traced f) paths (st, [])
            = (Some e, (st2, pre ++ [c]))) as Hm; [|split; exact Hm].
    unfold merge. rewrite Hr.
    rewrite (traced_merge_range_break f st pre st1 c e st2 post Hpre Hc).
    unfold merge_result. now rewrite Hne.
  - intros st1 Hall.
    assert (merge range p (traced f) paths (st, [])
            = (None, (st1, range p paths))) as Hm; [|split; exact Hm].
    unfold merge. now rewrite (traced_merge_range_all f st _ st1 Hall).
Qed.

Lemma merge_propagates_error_witness :
  merge as_given "x" (traced (fails_at "/a/x" ErrHomeInvalid))
    ["/h/x"; "/a/x"; "/b/x"] (0, [])
  = (Some ErrHomeInvalid, (2, ["/h/x"; "/a/x"]))
  /\ merge as_given "x" (traced (fails_at "/none" ErrHomeInvalid))
       ["/h/x"; "/a/x"] (0, [])
     = (None, (2, ["/h/x"; "/a/x"])).
Proof.
  split.
  - apply (proj1 (merge_propagates_error as_given "x"
                    (fails_at "/a/x" ErrHomeInvalid)
                    ["/h/x"; "/a/x"; "/b/x"] 0)
             ["/h/x"] "/a/x" ["/b/x"] 1 2 ErrHomeInvalid).
    + reflexivity.
    + econstructor; [reflexivity|constructor].
    + reflexivity.
    + reflexivity.
  - apply (proj2 (merge_propagates_error as_given "x"
                    (fails_at "/none" ErrHomeInvalid) ["/h/x"; "/a/x"] 0) 2).
    econstructor; [reflexivity|].
    econstructor; [reflexivity|constructor].
Defined.

(** C10.  [range] is as in C6.  When the callback returns an error [e] on
    a candidate [c], last or not, after [nil] on the candidates before it,
    the merge returns [nil] if [e] is the pointer [Skip] and [e] itself
    otherwise.  An error made by [errors.New] with the text of [Skip] after
    the package was initialised is of the second kind: it has the text of
    [Skip], is not [Skip], and is returned by the merge. *)
Theorem merge_Skip_is_a_pointer {St} range p (f : MergeFunc St) paths st
    pre c post st1 e st2 :
  range p paths = pre ++ c :: post ->
  returns_nil f st pre st1 ->
  f c st1 = (Some e, st2) ->
  (err_ptr e = err_ptr Skip ->
     fst (merge range p f paths st) = None
     /\ fst (mergeR range p f paths st) = None)
  /\ (err_ptr e <> err_ptr Skip ->
     fst (merge range p f paths st) = Some e
     /\ fst (mergeR range p f paths st) = Some e)
  /\ (forall next, first_free <= next ->
      e = fst (errors_New (err_text Skip) next) ->
      err_text e = err_text Skip
      /\ error_eqb (Some e) (Some Skip) = false
      /\ fst (merge range p f paths st) = Some e
      /\ fst (mergeR range p f paths st) = Some e).
Proof.
  intros Hr Hpre Hc. change (@mergeR) with (@merge).
  rewrite (merge_break range p f paths st pre c post st1 e st2 Hr Hpre Hc).
  cbn [fst]. repeat split.
  - apply Nat.eqb_eq in H. now rewrite H.
  - apply Nat.eqb_eq in H. now rewrite H.
  - apply Nat.eqb_neq in H. now rewrite H.
  - apply Nat.eqb_neq in H. now rewrite H.
  - now subst e.
  - subst e. unfold first_free in H. cbn. apply Nat.eqb_neq. lia.
  - subst e. unfold first_free in H. cbn [errors_New fst err_ptr Skip].
    destruct (Nat.eqb_spec next 1); [lia|reflexivity].
  - subst e. unfold first_free in H. cbn [errors_New fst err_ptr Skip].
    destruct (Nat.eqb_spec next 1); [lia|reflexivity].
Qed.

Lemma merge_Skip_is_a_pointer_witness :
  fst (merge as_given "x"
         (fails_at "/a/x" (fst (errors_New (err_text Skip) 7)))
         ["/h/x"; "/a/x"] 0)
  = Some (mkError 7 "skip the rest of the files to be merged").
Proof.
  apply (merge_Skip_is_a_pointer as_given "x"
           (fails_at "/a/x" (fst (errors_New (err_text Skip) 7)))
           ["/h/x"; "/a/x"] 0 ["/h/x"] "/a/x" [] 1
           (fst (errors_New (err_text Skip) 7)) 2).
  - reflexivity.
  - econstructor; [reflexivity|constructor].
  - reflexivity.
  - cbn. discriminate.
Defined.

(** [Skip] on the last candidate. *)
Example merge_Skip_on_last :
  merge as_given "x" (traced (fails_at "/a/x" Skip)) ["/h/x"; "/a/x"] (0, [])
  = (None, (2, ["/h/x"; "/a/x"])).
Proof. reflexivity. Qed.

(** ** Further facts about [xdgPath] *)

Lemma path_IsAbs_nonempty v : path_IsAbs v = true -> v <> "".
Proof. destruct v; [discriminate|congruence]. Qed.

Lemma scalar_candidate_set environ h env def :
  os_Getenv environ env <> "" ->
  scalar_candidate environ h env def = os_Getenv environ env.
Proof.
  intros Hne. unfold scalar_candidate.
  destruct (String.eqb_spec (os_Getenv environ env) ""); [contradiction|].
  reflexivity.
Qed.

(** X1.  A variable that holds an absolute path is returned as it is,
    whatever the default and [home] are, and no package variable
    changes. *)
Theorem xdgPath_absolute_variable environ env def g :
  path_IsAbs (os_Getenv environ env) = true ->
  xdgPath environ env def g = (os_Getenv environ env, g).
Proof.
  intros Habs. rewrite xdgPath_run. unfold scalar_value, scalar_diag.
  rewrite scalar_candidate_set by now apply path_IsAbs_nonempty.
  rewrite Habs. now rewrite logged_nil.
Qed.

Lemma xdgPath_absolute_variable_witness :
  xdgPath [("XDG_CACHE_HOME", "/var/cache/u")] "XDG_CACHE_HOME"
    "$HOME/.config" zero_Globals
  = ("/var/cache/u", zero_Globals).
Proof.
  apply (xdgPath_absolute_variable [("XDG_CACHE_HOME", "/var/cache/u")]
           "XDG_CACHE_HOME" "$HOME/.config" zero_Globals).
  reflexivity.
Defined.

(** X2.  A variable that holds a non-empty relative path is not replaced
    by the default: the result is empty, and one error with the text
    ["no value set for <env>"] is allocated and appended to [Errors]. *)
Theorem xdgPath_relative_variable environ env def g :
  os_Getenv environ env <> "" ->
  path_IsAbs (os_Getenv environ env) = false ->
  xdgPath environ env def g
  = ("",
     mkGlobals (home g) (ConfigHome g) (DataHome g) (CacheHome g)
       (RuntimeDir g) (ConfigDirs g) (DataDirs g)
       (Errors g ++ [mkError (heap_next g) ("no value set for " ++ env)])
       (S (heap_next g))).
Proof.
  intros Hne Hrel. rewrite xdgPath_run. unfold scalar_value, scalar_diag.
  rewrite scalar_candidate_set by assumption. rewrite Hrel.
  unfold logged. cbn [alloc_errors length]. now rewrite Nat.add_1_r.
Qed.

Lemma xdgPath_relative_variable_witness :
  fst (xdgPath [("XDG_RUNTIME_DIR", "run/u")] "XDG_RUNTIME_DIR" "/run"
         zero_Globals)
  = "".
Proof.
  rewrite (xdgPath_relative_variable [("XDG_RUNTIME_DIR", "run/u")]
             "XDG_RUNTIME_DIR" "/run" zero_Globals).
  - reflexivity.
  - discriminate.
  - reflexivity.
Defined.

(** X3.  With the variable unset or empty, a default that mentions
    ["$HOME"] and an empty [home], nothing is substituted: the result is
    empty and the error is logged, also where dropping the placeholder
    would leave an absolute path such as ["/.config"]. *)
Theorem xdgPath_default_needs_home environ env def g :
  os_Getenv environ env = "" ->
  strings_Contains def "$HOME" = true ->
  home g = "" ->
  fst (xdgPath environ env def g) = ""
  /\ map err_text (Errors (snd (xdgPath environ env def g)))
     = map err_text (Errors g) ++ [("no value set for " ++ env)%string].
Proof.
  intros Hx Hc Hh. rewrite xdgPath_run. cbn [fst snd].
  unfold scalar_value, scalar_diag, scalar_candidate.
  rewrite Hx, Hc, Hh. cbn. split; [reflexivity|].
  now rewrite map_app.
Qed.

Lemma xdgPath_default_needs_home_witness :
  fst (xdgPath [] "XDG_CONFIG_HOME" "$HOME/.config" zero_Globals) = "".
Proof.
  apply (xdgPath_default_needs_home [] "XDG_CONFIG_HOME" "$HOME/.config"
           zero_Globals); reflexivity.
Defined.

(** X4.  With the variable unset or empty and [home] an absolute path, a
    default of the form ["$HOME<rest>"] gives [home] followed by [rest],
    and no package variable changes. *)
Theorem xdgPath_default_expands_home environ env rest g :
  os_Getenv environ env = "" ->
  path_IsAbs (home g) = true ->
  strings_Contains rest "$HOME" = false ->
  xdgPath environ env ("$HOME" ++ rest) g = ((home g ++ rest)%string, g).
Proof.
  intros Hx Habs Hrest. rewrite xdgPath_run.
  assert (Hne : home g <> "") by now apply path_IsAbs_nonempty.
  assert (Hc : strings_Contains ("$HOME" ++ rest) "$HOME" = true).
  { pose proof (prefix_append "$HOME" rest) as Hp.
    cbn [String.append] in *. cbn [strings_Contains]. now rewrite Hp. }
  assert (Hcand : scalar_candidate environ (home g) env ("$HOME" ++ rest)
                  = (home g ++ rest)%string).
  { unfold scalar_candidate. rewrite Hx, Hc. cbn [String.eqb].
    destruct (String.eqb_spec (home g) ""); [contradiction|]. cbn [negb].
    apply strings_Replace_all_head; [discriminate|assumption]. }
  unfold scalar_value, scalar_diag. rewrite Hcand.
  rewrite path_IsAbs_append, Habs by assumption. now rewrite logged_nil.
Qed.

Lemma xdgPath_default_expands_home_witness :
  fst (xdgPath [] "XDG_DATA_HOME" ("$HOME" ++ "/.local/share")
         (mkGlobals "/home/u" "" "" "" "" [] [] [] first_free))
  = "/home/u/.local/share".
Proof.
  rewrite (xdgPath_default_expands_home [] "XDG_DATA_HOME" "/.local/share"
             (mkGlobals "/home/u" "" "" "" "" [] [] [] first_free));
    reflexivity.
Defined.

(** X5.  With the variable unset or empty, a default without ["$HOME"] is
    the result when it is absolute (no package variable changes then), and
    the result is empty when it is not. *)
Theorem xdgPath_plain_default environ env def g :
  os_Getenv environ env = "" ->
  strings_Contains def "$HOME" = false ->
  fst (xdgPath environ env def g) = (if path_IsAbs def then def else "")
  /\ (path_IsAbs def = true -> snd (xdgPath environ env def g) = g).
Proof.
  intros Hx Hc. rewrite xdgPath_run. cbn [fst snd].
  unfold scalar_value, scalar_diag, scalar_candidate. rewrite Hx, Hc.
  cbn [String.eqb]. split; [reflexivity|].
  intros ->. apply logged_nil.
Qed.

Lemma xdgPath_plain_default_witness :
  fst (xdgPath [] "XDG_RUNTIME_DIR" "" zero_Globals) = "".
Proof.
  apply (xdgPath_plain_default [] "XDG_RUNTIME_DIR" "" zero_Globals);
    reflexivity.
Defined.

(** X6.  [xdgPath] either returns an absolute path and leaves the package
    variables as they were, or returns the empty string and appends exactly
    one error, freshly allocated, with the text ["no value set for
    <env>"]. *)
Theorem xdgPath_absolute_or_logged environ env def g :
  (path_IsAbs (fst (xdgPath environ env def g)) = true
   /\ snd (xdgPath environ env def g) = g)
  \/ (fst (xdgPath environ env def g) = ""
      /\ Errors (snd (xdgPath environ env def g))
         = Errors g ++ [mkError (heap_next g) ("no value set for " ++ env)]
      /\ heap_next (snd (xdgPath environ env def g)) = S (heap_next g)).
Proof.
  rewrite xdgPath_run. cbn [fst snd]. unfold scalar_value, scalar_diag.
  destruct (path_IsAbs (scalar_candidate environ (home g) env def)) eqn:E.
  - left. split; [exact E | apply logged_nil].
  - right. unfold logged. cbn. rewrite Nat.add_1_r. auto.
Qed.

(** ** Further facts about [xdgPaths] *)

Lemma filter_length_split {A} (keep : A -> bool) (l : list A) :
  length (filter keep l) + length (filter (fun x => negb (keep x)) l)
  = length l.
Proof.
  induction l as [|x l IH]; [reflexivity|]. simpl.
  destruct (keep x); simpl; lia.
Qed.

(** One segment more than there are separators. *)
Lemma strings_Split_length s sep :
  length (strings_Split s sep) = S (count_byte sep s).
Proof.
  induction s as [|c s IH]; [reflexivity|]. simpl.
  destruct (Ascii.eqb c sep); simpl; [now rewrite IH|].
  pose proof (strings_Split_nonempty s sep) as Hn.
  destruct (strings_Split s sep); [congruence|exact IH].
Qed.

Lemma no_sep_head c e sep :
  strings_Contains (String c e) (String sep "") = false ->
  Ascii.eqb c sep = false /\ strings_Contains e (String sep "") = false.
Proof.
  cbn [strings_Contains String.prefix]. rewrite prefix_empty.
  intros H. apply orb_false_iff in H as [Hc He]. split; [|exact He].
  destruct (Ascii.ascii_dec sep c) as [->|Hne]; [discriminate|].
  destruct (Ascii.eqb_spec c sep); congruence.
Qed.

(** A string without the separator is one segment. *)
Lemma strings_Split_one e sep :
  strings_Contains e (String sep "") = false -> strings_Split e sep = [e].
Proof.
  induction e as [|c e IH]; [reflexivity|]. intros H.
  apply no_sep_head in H as [Hc He]. simpl. rewrite Hc. now rewrite IH.
Qed.

Lemma strings_Split_cons e sep s :
  strings_Contains e (String sep "") = false ->
  strings_Split (e ++ String sep s) sep = e :: strings_Split s sep.
Proof.
  induction e as [|c e IH]; intros H.
  - simpl. now rewrite Ascii.eqb_refl.
  - apply no_sep_head in H as [Hc He]. cbn [String.append strings_Split].
    rewrite Hc. now rewrite IH.
Qed.

(** Splitting undoes joining, for segments without the separator. *)
Lemma strings_Split_Join l sep :
  l <> [] ->
  (forall e, In e l -> strings_Contains e (String sep "") = false) ->
  strings_Split (strings_Join l sep) sep = l.
Proof.
  induction l as [|e l IH]; [congruence|]. intros _ Hall.
  destruct l as [|e' l].
  - simpl. apply strings_Split_one. apply Hall. now left.
  - change (strings_Join (e :: e' :: l) sep)
      with (e ++ String sep (strings_Join (e' :: l) sep))%string.
    rewrite strings_Split_cons by (apply Hall; now left).
    f_equal. apply IH; [discriminate|]. intros x Hx. apply Hall. now right.
Qed.

Lemma strings_Join_absolute l sep e :
  path_IsAbs e = true -> strings_Join (e :: l) sep <> "".
Proof.
  intros Habs. destruct e as [|c e]; [discriminate|].
  destruct l; simpl; discriminate.
Qed.

Lemma filter_all {A} (keep : A -> bool) (l : list A) :
  (forall x, In x l -> keep x = true) -> filter keep l = l.
Proof.
  induction l as [|x l IH]; intros H; [reflexivity|]. simpl.
  rewrite (H x (or_introl eq_refl)). f_equal. apply IH.
  intros y Hy. apply H. now right.
Qed.

Lemma filter_none {A} (keep : A -> bool) (l : list A) :
  (forall x, In x l -> keep x = false) -> filter keep l = [].
Proof.
  induction l as [|x l IH]; intros H; [reflexivity|]. simpl.
  rewrite (H x (or_introl eq_refl)). apply IH.
  intros y Hy. apply H. now right.
Qed.

(** X7.  [xdgPath] and [xdgPaths] write no package variable but the log:
    the directory variables keep their values, the log they found stays in
    front of what they append, and each appended error is one
    allocation. *)
Theorem xdgPath_xdgPaths_frame environ env def g :
  (same_dirs (snd (xdgPath environ env def g)) g
   /\ exists new,
        Errors (snd (xdgPath environ env def g)) = Errors g ++ new
        /\ heap_next (snd (xdgPath environ env def g))
           = heap_next g + length new)
  /\ (same_dirs (snd (xdgPaths environ env def g)) g
      /\ exists new,
           Errors (snd (xdgPaths environ env def g)) = Errors g ++ new
           /\ heap_next (snd (xdgPaths environ env def g))
              = heap_next g + length new).
Proof.
  rewrite xdgPath_run, xdgPaths_run. cbn [snd]. unfold logged, same_dirs.
  cbn [home ConfigHome DataHome CacheHome RuntimeDir ConfigDirs DataDirs
       Errors heap_next].
  split; (split; [repeat split|]); eexists;
    (split; [reflexivity|]); now rewrite alloc_errors_length.
Qed.

(** X8.  When the variable holds a non-empty string, every segment is
    either kept or logged: the kept directories and the appended errors
    number one more than the colons of the value. *)
Theorem xdgPaths_counts_segments environ env def g :
  os_Getenv environ env <> "" ->
  length (fst (xdgPaths environ env def g))
  + length (Errors (snd (xdgPaths environ env def g)))
  = length (Errors g) + S (count_byte ":" (os_Getenv environ env)).
Proof.
  intros Hne. rewrite xdgPaths_run. cbn [fst snd]. unfold logged.
  cbn [Errors]. rewrite length_app, alloc_errors_length.
  unfold list_diag, list_segments.
  destruct (String.eqb_spec (os_Getenv environ env) ""); [contradiction|].
  rewrite length_map, <- strings_Split_length.
  pose proof (filter_length_split path_IsAbs
                (strings_Split (os_Getenv environ env) ":")) as Hl.
  unfold is_relative. lia.
Qed.

Lemma xdgPaths_counts_segments_witness :
  length (fst (xdgPaths [("XDG_DATA_DIRS", "/a:b::/c")] "XDG_DATA_DIRS"
                 "/usr/share" zero_Globals))
  + length (Errors (snd (xdgPaths [("XDG_DATA_DIRS", "/a:b::/c")]
                           "XDG_DATA_DIRS" "/usr/share" zero_Globals)))
  = 4.
Proof.
  apply (xdgPaths_counts_segments [("XDG_DATA_DIRS", "/a:b::/c")]
           "XDG_DATA_DIRS" "/usr/share" zero_Globals).
  discriminate.
Defined.

(** X9.  With [XDG_CONFIG_DIRS] unset or empty, [xdgPaths] gives
    [/etc/xdg] and logs nothing, and [init] stores that list; likewise
    [XDG_DATA_DIRS] gives [/usr/local/share] and [/usr/share]. *)
Theorem xdgPaths_defaults environ g :
  (os_Getenv environ "XDG_CONFIG_DIRS" = "" ->
   xdgPaths environ "XDG_CONFIG_DIRS" "/etc/xdg" g = (["/etc/xdg"], g)
   /\ ConfigDirs (resolve environ g) = ["/etc/xdg"])
  /\ (os_Getenv environ "XDG_DATA_DIRS" = "" ->
      xdgPaths environ "XDG_DATA_DIRS" "/usr/local/share:/usr/share" g
      = (["/usr/local/share"; "/usr/share"], g)
      /\ DataDirs (resolve environ g) = ["/usr/local/share"; "/usr/share"]).
Proof.
  split; intros Hx.
  - rewrite xdgPaths_run, resolve_ConfigDirs.
    unfold list_diag, list_segments. rewrite Hx. cbn.
    now rewrite logged_nil.
  - rewrite xdgPaths_run, resolve_DataDirs.
    unfold list_diag, list_segments. rewrite Hx. cbn.
    now rewrite logged_nil.
Qed.

(** X10.  A variable that holds a non-empty string without any absolute
    segment gives the empty list: the default is not used in its place,
    and every segment is logged. *)
Theorem xdgPaths_all_relative environ env def g :
  os_Getenv environ env <> "" ->
  (forall x, In x (strings_Split (os_Getenv environ env) ":") ->
             path_IsAbs x = false) ->
  fst (xdgPaths environ env def g) = []
  /\ map err_text (Errors (snd (xdgPaths environ env def g)))
     = map err_text (Errors g)
       ++ map (ignoring env) (strings_Split (os_Getenv environ env) ":").
Proof.
  intros Hne Hrel. rewrite xdgPaths_run. cbn [fst snd].
  unfold logged, list_diag, list_segments. cbn [Errors].
  destruct (String.eqb_spec (os_Getenv environ env) ""); [contradiction|].
  split; [now apply filter_none|].
  rewrite map_app, alloc_errors_texts. do 2 f_equal.
  apply filter_all. intros x Hx. unfold is_relative. now rewrite Hrel.
Qed.

Lemma xdgPaths_all_relative_witness :
  fst (xdgPaths [("XDG_CONFIG_DIRS", "etc/xdg:opt")] "XDG_CONFIG_DIRS"
         "/etc/xdg" zero_Globals)
  = [].
Proof.
  apply (xdgPaths_all_relative [("XDG_CONFIG_DIRS", "etc/xdg:opt")]
           "XDG_CONFIG_DIRS" "/etc/xdg" zero_Globals).
  - discriminate.
  - cbn. intros x [<-|[<-|[]]]; reflexivity.
Defined.

(** X11.  A non-empty list resolved by [xdgPaths], joined with [":"] and
    put back into the variable, resolves to itself, and nothing is logged:
    whatever the defaults and the package variables then are. *)
Theorem xdgPaths_round_trip environ env def g environ' def' g' :
  fst (xdgPaths environ env def g) <> [] ->
  os_Getenv environ' env
  = strings_Join (fst (xdgPaths environ env def g)) ":" ->
  xdgPaths environ' env def' g' = (fst (xdgPaths environ env def g), g').
Proof.
  rewrite (xdgPaths_run environ). cbn [fst].
  set (l := filter path_IsAbs (list_segments environ env def)).
  intros Hne Hx.
  assert (Habs : forall e, In e l -> path_IsAbs e = true).
  { intros e He. apply filter_In in He. tauto. }
  assert (Hsep : forall e, In e l -> strings_Contains e ":" = false).
  { intros e He. apply filter_In in He as [He _].
    unfold list_segments in He. now apply strings_Split_no_sep in He. }
  assert (Hjoin : strings_Join l ":" <> "").
  { destruct l as [|e l']; [congruence|].
    apply strings_Join_absolute. apply Habs. now left. }
  rewrite xdgPaths_run. unfold list_diag, list_segments. rewrite Hx.
  destruct (String.eqb_spec (strings_Join l ":") ""); [contradiction|].
  rewrite strings_Split_Join by assumption.
  rewrite (filter_all path_IsAbs l Habs).
  rewrite (filter_none is_relative l).
  - cbn [map]. now rewrite logged_nil.
  - intros x Hx'. unfold is_relative. now rewrite Habs.
Qed.

Lemma xdgPaths_round_trip_witness :
  xdgPaths [("XDG_DATA_DIRS", "/a:/c")] "XDG_DATA_DIRS" "" zero_Globals
  = (fst (xdgPaths [("XDG_DATA_DIRS", "/a:b::/c")] "XDG_DATA_DIRS"
            "/usr/share" zero_Globals), zero_Globals).
Proof.
  apply (xdgPaths_round_trip [("XDG_DATA_DIRS", "/a:b::/c")] "XDG_DATA_DIRS"
           "/usr/share" zero_Globals [("XDG_DATA_DIRS", "/a:/c")] ""
           zero_Globals).
  - cbn. discriminate.
  - reflexivity.
Defined.

(** ** Further facts about [init] *)

(** What a scalar of [init] comes to, given that its default yields
    nothing when the variable is unset. *)
Lemma scalar_value_of_variable environ h env def :
  (os_Getenv environ env = "" ->
   path_IsAbs (scalar_candidate environ h env def) = false) ->
  scalar_value environ h env def
  = (if path_IsAbs (os_Getenv environ env) then os_Getenv environ env else "")
  /\ scalar_diag environ h env def = missing env (os_Getenv environ env).
Proof.
  intros Hunset. unfold scalar_value, scalar_diag, missing.
  destruct (String.eqb_spec (os_Getenv environ env) "") as [Hx|Hx].
  - rewrite (Hunset Hx), Hx. now split.
  - rewrite scalar_candidate_set by assumption. now split.
Qed.

Lemma templated_candidate_relative environ env :
  os_Getenv environ env = "" ->
  path_IsAbs (scalar_candidate environ (home_value environ) env "$HOME/.config")
  = false.
Proof.
  intros Hx.
  pose proof (scalar_value_templated environ (home_value environ) env
                "/.config" Hx (home_value_not_absolute environ) eq_refl) as Hv.
  unfold scalar_value in Hv. cbn [String.append] in Hv.
  destruct (path_IsAbs (scalar_candidate environ (home_value environ) env
                          "$HOME/.config")) eqn:E; [|reflexivity].
  rewrite Hv in E. discriminate.
Qed.

Lemma runtime_candidate_relative environ h :
  os_Getenv environ "XDG_RUNTIME_DIR" = "" ->
  path_IsAbs (scalar_candidate environ h "XDG_RUNTIME_DIR" "") = false.
Proof. intros Hx. unfold scalar_candidate. now rewrite Hx. Qed.

(** X12.  After [init], each of [ConfigHome], [DataHome], [CacheHome] and
    [RuntimeDir] is the value of its variable when that value is an
    absolute path, and empty otherwise: no default ever reaches them. *)
Theorem init_scalars_from_variables environ g :
  ConfigHome (resolve environ g)
  = (if path_IsAbs (os_Getenv environ "XDG_CONFIG_HOME")
     then os_Getenv environ "XDG_CONFIG_HOME" else "")
  /\ DataHome (resolve environ g)
     = (if path_IsAbs (os_Getenv environ "XDG_DATA_HOME")
        then os_Getenv environ "XDG_DATA_HOME" else "")
  /\ CacheHome (resolve environ g)
     = (if path_IsAbs (os_Getenv environ "XDG_CACHE_HOME")
        then os_Getenv environ "XDG_CACHE_HOME" else "")
  /\ RuntimeDir (resolve environ g)
     = (if path_IsAbs (os_Getenv environ "XDG_RUNTIME_DIR")
        then os_Getenv environ "XDG_RUNTIME_DIR" else "").
Proof.
  rewrite resolve_eq. cbn [ConfigHome DataHome CacheHome RuntimeDir].
  repeat split.
  - apply scalar_value_of_variable, templated_candidate_relative.
  - apply scalar_value_of_variable, templated_candidate_relative.
  - apply scalar_value_of_variable, templated_candidate_relative.
  - apply scalar_value_of_variable, runtime_candidate_relative.
Qed.

(** X13.  The log after [init]: the log found, then [ErrHomeInvalid] if
    [HOME] is absolute, then one ["no value set for"] error for each of
    [XDG_CONFIG_HOME], [XDG_DATA_HOME], [XDG_CACHE_HOME], [XDG_RUNTIME_DIR]
    (in this order) whose value is not an absolute path, then the ignored
    segments of [XDG_CONFIG_DIRS], then those of [XDG_DATA_DIRS]. *)
Theorem init_log_order environ g :
  map err_text (Errors (resolve environ g))
  = map err_text (Errors g)
    ++ (if path_IsAbs (os_Getenv environ "HOME")
        then ["environment variable HOME is invalid or not set"] else [])
    ++ missing "XDG_CONFIG_HOME" (os_Getenv environ "XDG_CONFIG_HOME")
    ++ missing "XDG_DATA_HOME" (os_Getenv environ "XDG_DATA_HOME")
    ++ missing "XDG_CACHE_HOME" (os_Getenv environ "XDG_CACHE_HOME")
    ++ missing "XDG_RUNTIME_DIR" (os_Getenv environ "XDG_RUNTIME_DIR")
    ++ map (ignoring "XDG_CONFIG_DIRS")
         (filter (fun x => negb (path_IsAbs x))
            (strings_Split
               (if String.eqb (os_Getenv environ "XDG_CONFIG_DIRS") ""
                then "/etc/xdg" else os_Getenv environ "XDG_CONFIG_DIRS")
               ":"))
    ++ map (ignoring "XDG_DATA_DIRS")
         (filter (fun x => negb (path_IsAbs x))
            (strings_Split
               (if String.eqb (os_Getenv environ "XDG_DATA_DIRS") ""
                then "/usr/local/share:/usr/share"
                else os_Getenv environ "XDG_DATA_DIRS")
               ":")).
Proof.
  rewrite resolve_eq. cbn [Errors].
  rewrite !map_app, alloc_errors_texts. f_equal. f_equal.
  - unfold home_diag. now destruct (path_IsAbs (os_Getenv environ "HOME")).
  - unfold diag_texts.
    rewrite (proj2 (scalar_value_of_variable environ (home_value environ)
                      "XDG_CONFIG_HOME" "$HOME/.config"
                      (templated_candidate_relative environ _))).
    rewrite (proj2 (scalar_value_of_variable environ (home_value environ)
                      "XDG_DATA_HOME" "$HOME/.config"
                      (templated_candidate_relative environ _))).
    rewrite (proj2 (scalar_value_of_variable environ (home_value environ)
                      "XDG_CACHE_HOME" "$HOME/.config"
                      (templated_candidate_relative environ _))).
    rewrite (proj2 (scalar_value_of_variable environ (home_value environ)
                      "XDG_RUNTIME_DIR" ""
                      (runtime_candidate_relative environ _))).
    reflexivity.
Qed.

(** X14.  After [init], every element of [ConfigDirs] and of [DataDirs] is
    an absolute path without a colon, and so none is empty. *)
Theorem init_lists_wellformed environ g d :
  In d (ConfigDirs (resolve environ g)) \/ In d (DataDirs (resolve environ g)) ->
  path_IsAbs d = true /\ strings_Contains d ":" = false /\ d <> "".
Proof.
  rewrite resolve_ConfigDirs, resolve_DataDirs. unfold list_segments.
  intros [H|H]; apply filter_In in H as [Hin Habs];
    (split; [exact Habs|]);
    (split; [now apply strings_Split_no_sep in Hin
            | now apply path_IsAbs_nonempty]).
Qed.

Lemma init_lists_wellformed_witness :
  path_IsAbs "/usr/share" = true
  /\ strings_Contains "/usr/share" ":" = false
  /\ "/usr/share" <> "".
Proof.
  apply (init_lists_wellformed [] zero_Globals "/usr/share").
  right. cbn. tauto.
Defined.

Lemma alloc_errors_ptrs texts next :
  map err_ptr (alloc_errors texts next) = seq next (length texts).
Proof.
  revert next. induction texts as [|t ts IH]; intros next; simpl;
    [reflexivity | now rewrite IH].
Qed.

(** X15.  [init] keeps the heap and the log in agreement, and its
    diagnostics are errors of their own: apart from [ErrHomeInvalid], the
    errors it appends are freshly allocated, pairwise distinct pointers,
    none of them [Skip] or [ErrHomeInvalid]. *)
Theorem init_allocates_fresh_errors environ g :
  heap_ok g ->
  heap_ok (resolve environ g)
  /\ exists new,
       Errors (resolve environ g) = Errors g ++ home_diag environ ++ new
       /\ NoDup (map err_ptr new)
       /\ forall e, In e new ->
            heap_next g <= err_ptr e
            /\ error_eqb (Some e) (Some Skip) = false
            /\ error_eqb (Some e) (Some ErrHomeInvalid) = false
            /\ forall e0, In e0 (Errors g) ->
                 error_eqb (Some e) (Some e0) = false.
Proof.
  intros [Hfree Hlog]. rewrite resolve_eq. cbn [Errors]. split.
  - split; cbn [heap_next Errors]; [lia|].
    intros e He. rewrite !in_app_iff in He. destruct He as [He|[He|He]].
    + apply Hlog in He. lia.
    + unfold home_diag in He.
      destruct (path_IsAbs (os_Getenv environ "HOME")); [|destruct He].
      destruct He as [<-|[]]. unfold first_free in Hfree. cbn. lia.
    + apply in_map with (f := err_ptr) in He.
      rewrite alloc_errors_ptrs in He. apply in_seq in He. lia.
  - eexists. split; [reflexivity|]. split.
    + rewrite alloc_errors_ptrs. apply seq_NoDup.
    + intros e He. apply alloc_errors_fresh in He.
      unfold first_free in Hfree. cbn [error_eqb].
      split; [exact He|]. split; [|split].
      * apply Nat.eqb_neq. cbn. lia.
      * apply Nat.eqb_neq. cbn. lia.
      * intros e0 He0. apply Hlog in He0. apply Nat.eqb_neq. lia.
Qed.

Lemma init_allocates_fresh_errors_witness :
  heap_ok (resolve [("HOME", "/home/u")] zero_Globals).
Proof.
  apply (init_allocates_fresh_errors [("HOME", "/home/u")] zero_Globals).
  split; [apply le_n | intros e []].
Defined.

(** ** Further facts about [merge] and [mergeR] *)

Section MergeInversion.

Context {St : Type}.
Variable f : MergeFunc St.

(** The loop over a list in two parts. *)
Lemma merge_range_app l1 l2 st :
  merge_range f (l1 ++ l2) st
  = match merge_range f l1 st with
    | (Some e, st1) => (Some e, st1)
    | (None, st1) => merge_range f l2 st1
    end.
Proof.
  revert st. induction l1 as [|s l1 IH]; intros st; [reflexivity|].
  cbn [app merge_range]. destruct (f s st) as [[e|] st1]; [reflexivity|].
  apply IH.
Qed.

(** A loop that ends without an error has had [nil] from every call. *)
Lemma merge_range_nil_inv ss st st1 :
  merge_range f ss st = (None, st1) -> returns_nil f st ss st1.
Proof.
  revert st. induction ss as [|s ss IH]; intros st; cbn [merge_range].
  - intros [= ->]. constructor.
  - destruct (f s st) as [[e|] st'] eqn:E; [discriminate|].
    intros H. econstructor; [exact E | now apply IH].
Qed.

(** A loop that ends with an error broke at the call that returned it. *)
Lemma merge_range_error_inv ss st e st2 :
  merge_range f ss st = (Some e, st2) ->
  exists pre c post st1,
    ss = pre ++ c :: post
    /\ returns_nil f st pre st1
    /\ f c st1 = (Some e, st2).
Proof.
  revert st. induction ss as [|s ss IH]; intros st; cbn [merge_range];
    [discriminate|].
  destruct (f s st) as [[e'|] st'] eqn:E.
  - intros [= -> ->]. exists [], s, ss, st.
    split; [reflexivity|]. split; [constructor|exact E].
  - intros H. destruct (IH st' H) as (pre & c & post & st1 & -> & Hpre & Hc).
    exists (s :: pre), c, post, st1. split; [reflexivity|].
    split; [econstructor; eassumption | exact Hc].
Qed.

(** The traced loop is the loop, with the calls it made written down: a
    part of the list from its start. *)
Lemma traced_merge_range ss st calls :
  exists visited rest,
    ss = visited ++ rest
    /\ merge_range (traced f) ss (st, calls)
       = (fst (merge_range f ss st),
          (snd (merge_range f ss st), calls ++ visited)).
Proof.
  revert st calls. induction ss as [|s ss IH]; intros st calls.
  - exists [], []. split; [reflexivity|]. cbn. now rewrite app_nil_r.
  - cbn [merge_range]. unfold traced at 1. cbn [fst snd].
    destruct (f s st) as [[e|] st'] eqn:E.
    + exists [s], ss. split; reflexivity.
    + destruct (IH st' (calls ++ [s])) as (visited & rest & -> & Hrun).
      exists (s :: visited), rest. split; [reflexivity|].
      rewrite Hrun. now rewrite <- app_assoc.
Qed.

End MergeInversion.

(** X16.  [range] stands for [find] in [merge] and for [findR] in
    [mergeR].  Whatever the callback does, it is called on the candidates
    in their order, from the first one, without gaps or repeats: its calls
    are the candidate list or that list cut short.  Recording the calls
    changes neither the error returned nor the callback's state. *)
Theorem merge_calls_are_a_prefix {St} range p (f : MergeFunc St) paths st :
  exists rest,
    range p paths
    = snd (snd (merge range p (traced f) paths (st, []))) ++ rest
    /\ fst (merge range p (traced f) paths (st, []))
       = fst (merge range p f paths st)
    /\ fst (snd (merge range p (traced f) paths (st, [])))
       = snd (merge range p f paths st)
    /\ mergeR range p (traced f) paths (st, [])
       = merge range p (traced f) paths (st, []).
Proof.
  destruct (traced_merge_range f (range p paths) st [])
    as (visited & rest & Hsplit & Hrun).
  assert (Hm : merge range p (traced f) paths (st, [])
               = (fst (merge range p f paths st),
                  (snd (merge range p f paths st), visited))).
  { unfold merge. rewrite Hrun.
    destruct (merge_range f (range p paths) st) as [err st1].
    unfold merge_result. cbn [fst snd app].
    now destruct (error_eqb err (Some Skip)). }
  exists rest. change (@mergeR) with (@merge). rewrite Hm. cbn [fst snd].
  repeat split. exact Hsplit.
Qed.

(** X17.  No merge returns [Skip]: the error that [merge], [mergeR] and
    the four [Merge*Files] functions return is never the pointer [Skip],
    whatever the callback, the candidates and the package variables. *)
Theorem merge_never_returns_Skip {St} find findR g p (f : MergeFunc St)
    paths st :
  error_eqb (fst (merge find p f paths st)) (Some Skip) = false
  /\ error_eqb (fst (mergeR findR p f paths st)) (Some Skip) = false
  /\ error_eqb (fst (MergeDataFiles find g p f st)) (Some Skip) = false
  /\ error_eqb (fst (MergeDataFilesR findR g p f st)) (Some Skip) = false
  /\ error_eqb (fst (MergeConfigFiles find g p f st)) (Some Skip) = false
  /\ error_eqb (fst (MergeConfigFilesR findR g p f st)) (Some Skip) = false.
Proof.
  assert (H : forall r : error_value * St,
             error_eqb (fst (merge_result r)) (Some Skip) = false).
  { intros [err st1]. unfold merge_result.
    destruct (error_eqb err (Some Skip)) eqn:E; [reflexivity|exact E]. }
  unfold MergeDataFiles, MergeDataFilesR, MergeConfigFiles, MergeConfigFilesR,
    merge, mergeR.
  repeat split; apply H.
Qed.

(** X18.  [range] is as in X16.  An error comes out of a merge only if
    the callback returned it: when the merge returns [e], the callback
    returned [nil] on the candidates before some candidate [c] and [e] on
    [c], [e] is not [Skip], and the callback's state is the one it left at
    [c]. *)
Theorem merge_error_comes_from_callback {St} range p (f : MergeFunc St)
    paths st e :
  fst (merge range p f paths st) = Some e ->
  exists pre c post st1,
    range p paths = pre ++ c :: post
    /\ returns_nil f st pre st1
    /\ f c st1 = (Some e, snd (merge range p f paths st))
    /\ err_ptr e <> err_ptr Skip.
Proof.
  unfold merge. destruct (merge_range f (range p paths) st) as [err st2] eqn:E.
  unfold merge_result.
  destruct (error_eqb err (Some Skip)) eqn:Hs; cbn [fst snd]; [discriminate|].
  intros ->. apply merge_range_error_inv in E.
  destruct E as (pre & c & post & st1 & Hr & Hpre & Hc).
  exists pre, c, post, st1. repeat split; try assumption.
  cbn in Hs. now apply Nat.eqb_neq in Hs.
Qed.

Lemma merge_error_comes_from_callback_witness :
  exists pre c post st1,
    as_given "x" ["/h/x"; "/a/x"; "/b/x"] = pre ++ c :: post
    /\ returns_nil (fails_at "/a/x" ErrHomeInvalid) 0 pre st1
    /\ fails_at "/a/x" ErrHomeInvalid c st1
       = (Some ErrHomeInvalid,
          snd (merge as_given "x" (fails_at "/a/x" ErrHomeInvalid)
                 ["/h/x"; "/a/x"; "/b/x"] 0))
    /\ err_ptr ErrHomeInvalid <> err_ptr Skip.
Proof.
  apply (merge_error_comes_from_callback as_given "x"
           (fails_at "/a/x" ErrHomeInvalid) ["/h/x"; "/a/x"; "/b/x"] 0
           ErrHomeInvalid).
  reflexivity.
Defined.

(** X19.  [range] is as in X16.  When a merge returns [nil], either the
    callback returned [nil] on every candidate, or it returned [nil] on
    the candidates before some candidate [c] and the pointer [Skip] on
    [c]. *)
Theorem merge_nil_means_done_or_Skip {St} range p (f : MergeFunc St)
    paths st :
  fst (merge range p f paths st) = None ->
  returns_nil f st (range p paths) (snd (merge range p f paths st))
  \/ exists pre c post st1 e,
       range p paths = pre ++ c :: post
       /\ returns_nil f st pre st1
       /\ f c st1 = (Some e, snd (merge range p f paths st))
       /\ err_ptr e = err_ptr Skip.
Proof.
  unfold merge. destruct (merge_range f (range p paths) st) as [err st2] eqn:E.
  unfold merge_result.
  destruct (error_eqb err (Some Skip)) eqn:Hs; cbn [fst snd].
  - intros _. destruct err as [e|]; [|discriminate]. right.
    apply merge_range_error_inv in E.
    destruct E as (pre & c & post & st1 & Hr & Hpre & Hc).
    exists pre, c, post, st1, e. repeat split; try assumption.
    cbn in Hs. now apply Nat.eqb_eq in Hs.
  - intros ->. left. now apply merge_range_nil_inv.
Qed.

Lemma merge_nil_means_done_or_Skip_witness :
  returns_nil (fails_at "/none" Skip) 0 (as_given "x" ["/h/x"; "/a/x"])
    (snd (merge as_given "x" (fails_at "/none" Skip) ["/h/x"; "/a/x"] 0))
  \/ exists pre c post st1 e,
       as_given "x" ["/h/x"; "/a/x"] = pre ++ c :: post
       /\ returns_nil (fails_at "/none" Skip) 0 pre st1
       /\ fails_at "/none" Skip c st1
          = (Some e,
             snd (merge as_given "x" (fails_at "/none" Skip)
                    ["/h/x"; "/a/x"] 0))
       /\ err_ptr e = err_ptr Skip.
Proof.
  apply (merge_nil_means_done_or_Skip as_given "x" (fails_at "/none" Skip)
           ["/h/x"; "/a/x"] 0).
  reflexivity.
Defined.

(** X20.  [range] is as in X16.  A merge whose callback returns [nil] on
    the first candidates [pre] goes on as a merge over the remaining
    candidates from the state the callback has reached: the candidates
    visited without an error leave no trace in the result but that
    state. *)
Theorem merge_continues_after_nil {St} range p (f : MergeFunc St) paths st
    pre post st1 :
  range p paths = pre ++ post ->
  returns_nil f st pre st1 ->
  merge range p f paths st = merge (fun _ _ => post) p f paths st1
  /\ mergeR range p f paths st = mergeR (fun _ _ => post) p f paths st1.
Proof.
  intros Hr Hpre.
  assert (merge range p f paths st = merge (fun _ _ => post) p f paths st1)
    as Hm; [|split; exact Hm].
  unfold merge. rewrite Hr, merge_range_app.
  now rewrite (merge_range_all f st pre st1 Hpre).
Qed.

Lemma merge_continues_after_nil_witness :
  merge as_given "x" (fails_at "/b/x" ErrHomeInvalid)
    ["/h/x"; "/a/x"; "/b/x"; "/c/x"] 0
  = merge (fun _ _ => ["/b/x"; "/c/x"]) "x" (fails_at "/b/x" ErrHomeInvalid)
      ["/h/x"; "/a/x"; "/b/x"; "/c/x"] 2.
Proof.
  apply (merge_continues_after_nil as_given "x"
           (fails_at "/b/x" ErrHomeInvalid)
           ["/h/x"; "/a/x"; "/b/x"; "/c/x"] 0 ["/h/x"; "/a/x"]
           ["/b/x"; "/c/x"] 2).
  - reflexivity.
  - econstructor; [reflexivity|]. econstructor; [reflexivity|constructor].
Defined.

(** ** Lists put together *)

Lemma strings_Split_app a b sep :
  strings_Split (a ++ String sep b) sep
  = strings_Split a sep ++ strings_Split b sep.
Proof.
  induction a as [|c a IH].
  - simpl. now rewrite Ascii.eqb_refl.
  - cbn [String.append strings_Split]. rewrite IH.
    destruct (Ascii.eqb c sep); [reflexivity|].
    pose proof (strings_Split_nonempty a sep) as Hn.
    destruct (strings_Split a sep); [congruence|reflexivity].
Qed.

Lemma append_nonempty a b : a <> "" -> (a ++ b)%string <> "".
Proof. destruct a; [congruence|discriminate]. Qed.

(** X21.  Putting two non-empty values together with a colon puts their
    results together: the directories of [v1:v2] are those of [v1]
    followed by those of [v2], and so are the texts of the errors
    appended. *)
Theorem xdgPaths_of_joined_values env def e1 e2 e12 g :
  os_Getenv e1 env <> "" ->
  os_Getenv e2 env <> "" ->
  os_Getenv e12 env
  = (os_Getenv e1 env ++ String ":" (os_Getenv e2 env))%string ->
  fst (xdgPaths e12 env def g)
  = fst (xdgPaths e1 env def g) ++ fst (xdgPaths e2 env def g)
  /\ map err_text (Errors (snd (xdgPaths e12 env def g)))
     = map err_text (Errors (snd (xdgPaths e1 env def g)))
       ++ map (ignoring env)
            (filter (fun x => negb (path_IsAbs x))
               (strings_Split (os_Getenv e2 env) ":")).
Proof.
  intros H1 H2 H12. rewrite !xdgPaths_run. cbn [fst snd].
  unfold logged, list_diag, list_segments. cbn [Errors]. rewrite H12.
  destruct (String.eqb_spec (os_Getenv e1 env) ""); [contradiction|].
  destruct (String.eqb_spec (os_Getenv e2 env) ""); [contradiction|].
  destruct (String.eqb_spec
              (os_Getenv e1 env ++ String ":" (os_Getenv e2 env)) "") as [E|_].
  { now apply append_nonempty in E. }
  rewrite strings_Split_app, !filter_app. split; [reflexivity|].
  rewrite !map_app, !alloc_errors_texts, ?map_app, <- ?app_assoc.
  reflexivity.
Qed.

Lemma xdgPaths_of_joined_values_witness :
  fst (xdgPaths [("XDG_DATA_DIRS", "/a:b:/c:/d")] "XDG_DATA_DIRS" ""
         zero_Globals)
  = fst (xdgPaths [("XDG_DATA_DIRS", "/a:b")] "XDG_DATA_DIRS" ""
           zero_Globals)
    ++ fst (xdgPaths [("XDG_DATA_DIRS", "/c:/d")] "XDG_DATA_DIRS" ""
              zero_Globals).
Proof.
  apply (xdgPaths_of_joined_values "XDG_DATA_DIRS" ""
           [("XDG_DATA_DIRS", "/a:b")] [("XDG_DATA_DIRS", "/c:/d")]
           [("XDG_DATA_DIRS", "/a:b:/c:/d")] zero_Globals).
  - discriminate.
  - discriminate.
  - reflexivity.
Defined.
